(** * spotifyctl: the status formatter and the metadata field extractor

    A shallow embedding of [src/spotifyctl.c] (polybar-spotify-module):
    [get_song_title_from_metadata], [get_song_artist_from_metadata],
    [format_output] and the part of [get_status] that follows the D-Bus
    round trip.  The string and iterator helpers these functions call live
    in [utils.c], which is not among the sources at hand; they are modelled
    from the written specification and marked as such.

    The first half of the file is the model, the second half the lemmas
    and the theorems about it. *)

From Equations Require Import Equations.
From Stdlib Require Import ZArith Lia Bool List Ascii String.
Import ListNotations.

Local Open Scope string_scope.
Local Open Scope Z_scope.

(** * Part I: the model *)

(** ** C integers *)

Module CInt.

Definition INT_MAX : Z := 2147483647.
Definition INT_MIN : Z := -2147483648.

(** Conversion of an integer value to [int]: wrap-around modulo 2^32 into
    the signed range, as on the usual two's complement targets. *)
Definition to_int (z : Z) : Z := (z + 2 ^ 31) mod 2 ^ 32 - 2 ^ 31.

Definition fits_int (z : Z) : Prop := INT_MIN <= z <= INT_MAX.

End CInt.
Import CInt.

(** ** C strings

    A C string is its sequence of bytes, and a [char*] that may be null is
    an [option string].  [strlen] is the length, a [size_t]; it is wrapped
    only where the source stores it in an [int]. *)

Module CStr.

Definition strlen (s : string) : Z := Z.of_nat (String.length s).

(** The first [n] characters of [s] (all of [s] when it is shorter). *)
Fixpoint take (n : nat) (s : string) : string :=
  match n, s with
  | S n', String c s' => String c (take n' s')
  | _, _ => EmptyString
  end.

(** [s] without its first [n] characters. *)
Fixpoint skip (n : nat) (s : string) : string :=
  match n, s with
  | S n', String _ s' => skip n' s'
  | _, _ => s
  end.

(** [strstr(s, tok) != NULL]: [tok] occurs somewhere in [s]. *)
Fixpoint str_contains (s tok : string) : bool :=
  prefix tok s ||
  match s with
  | EmptyString => false
  | String _ s' => str_contains s' tok
  end.

(** No character of [s] is [c]. *)
Fixpoint free_of (c : ascii) (s : string) : bool :=
  match s with
  | EmptyString => true
  | String d s' => negb (Ascii.eqb d c) && free_of c s'
  end.

(** [s] ends with [suffix]. *)
Definition ends_with (s suffix : string) : Prop :=
  exists front, s = front ++ suffix.

Definition newline : string := String (ascii_of_nat 10) EmptyString.

Lemma length_skip_le n s : (String.length (skip n s) <= String.length s)%nat.
Proof.
  revert s. induction n as [|n IH]; intros [|c s]; simpl; try lia.
  specialize (IH s). lia.
Qed.

End CStr.
Import CStr.

(** ** String helpers of [utils.c] *)

(** Modelled from the spec: [str_trunc] of [utils.c], which is not among
    the sources.  "If [max_len] is unbounded or [len(s) <= max_len]: return
    [s] unchanged.  Else if [len(marker) > max_len]: fail.  Else: return the
    first [max_len - len(marker)] characters of [s], concatenated with the
    full marker."  A failure is the null pointer ([None]); "unbounded" is
    the [INT_MAX] that [main] gives every limit by default. *)
Definition str_trunc (str : string) (max_len : Z) (trunc : string)
  : option string :=
  if (max_len =? INT_MAX) || (strlen str <=? max_len) then Some str
  else if strlen trunc >? max_len then None
  else Some (take (Z.to_nat (max_len - strlen trunc)) str ++ trunc).

(** Modelled from the spec: [str_replace_all] of [utils.c], which is not
    among the sources.  "Token substitution is literal, all-occurrences,
    non-recursive (replacement text is never re-scanned for further token
    matches), left-to-right": the scan copies characters until [find]
    starts at the cursor, emits [repl] there and resumes after the
    occurrence in the original text.  An empty [find] occurs nowhere. *)
Equations? str_replace_all (str find repl : string) : string
  by wf (String.length str) lt :=
  str_replace_all str EmptyString repl := str;
  str_replace_all EmptyString (String f fs) repl := EmptyString;
  str_replace_all (String c rest) (String f fs) repl
    with prefix (String f fs) (String c rest) => {
    | true := repl ++ str_replace_all (skip (String.length fs) rest) (String f fs) repl;
    | false := String c (str_replace_all rest (String f fs) repl) }.
Proof.
  pose proof (length_skip_le (String.length fs) rest). lia.
Qed.

(** Modelled from the spec: [num_of_matches] of [utils.c], which is not
    among the sources: the "occurrence count" of a token in the template,
    counted by the same left-to-right scan as the substitution, so that the
    count is the number of replacements made. *)
Equations? num_of_matches (str find : string) : Z
  by wf (String.length str) lt :=
  num_of_matches str EmptyString := 0;
  num_of_matches EmptyString (String f fs) := 0;
  num_of_matches (String c rest) (String f fs)
    with prefix (String f fs) (String c rest) => {
    | true := 1 + num_of_matches (skip (String.length fs) rest) (String f fs);
    | false := num_of_matches rest (String f fs) }.
Proof.
  pose proof (length_skip_le (String.length fs) rest). lia.
Qed.

(** ** D-Bus messages and their iterators (libdbus) *)

Module DBus.

(** The type codes the extractor tests for, and the end-of-container
    code. *)
Inductive dbus_type : Type :=
| DBUS_TYPE_INVALID
| DBUS_TYPE_STRING
| DBUS_TYPE_VARIANT
| DBUS_TYPE_ARRAY
| DBUS_TYPE_DICT_ENTRY
| DBUS_TYPE_STRUCT
| DBUS_TYPE_OBJECT_PATH
| DBUS_TYPE_BOOLEAN
| DBUS_TYPE_INT32
| DBUS_TYPE_INT64
| DBUS_TYPE_DOUBLE.

Definition dbus_type_eqb (a b : dbus_type) : bool :=
  match a, b with
  | DBUS_TYPE_INVALID, DBUS_TYPE_INVALID
  | DBUS_TYPE_STRING, DBUS_TYPE_STRING
  | DBUS_TYPE_VARIANT, DBUS_TYPE_VARIANT
  | DBUS_TYPE_ARRAY, DBUS_TYPE_ARRAY
  | DBUS_TYPE_DICT_ENTRY, DBUS_TYPE_DICT_ENTRY
  | DBUS_TYPE_STRUCT, DBUS_TYPE_STRUCT
  | DBUS_TYPE_OBJECT_PATH, DBUS_TYPE_OBJECT_PATH
  | DBUS_TYPE_BOOLEAN, DBUS_TYPE_BOOLEAN
  | DBUS_TYPE_INT32, DBUS_TYPE_INT32
  | DBUS_TYPE_INT64, DBUS_TYPE_INT64
  | DBUS_TYPE_DOUBLE, DBUS_TYPE_DOUBLE => true
  | _, _ => false
  end.

(** A value carried by a message. *)
#[warnings="-register-all"]
Inductive value : Type :=
| Str (s : string)
| Variant (inner : value)
| Array (elems : list value)
| DictEntry (key val : value)
| Struct (fields : list value)
| ObjectPath (p : string)
| Boolean (b : bool)
| Int32 (n : Z)
| Int64 (n : Z)
| Double (bits : Z).

(** A message is the sequence of its arguments. *)
Definition DBusMessage : Type := list value.

(** An iterator is the part of a container that lies at and after the
    cursor: the head is the current value, [nil] is the end. *)
Definition DBusMessageIter : Type := list value.

Definition type_of (v : value) : dbus_type :=
  match v with
  | Str _ => DBUS_TYPE_STRING
  | Variant _ => DBUS_TYPE_VARIANT
  | Array _ => DBUS_TYPE_ARRAY
  | DictEntry _ _ => DBUS_TYPE_DICT_ENTRY
  | Struct _ => DBUS_TYPE_STRUCT
  | ObjectPath _ => DBUS_TYPE_OBJECT_PATH
  | Boolean _ => DBUS_TYPE_BOOLEAN
  | Int32 _ => DBUS_TYPE_INT32
  | Int64 _ => DBUS_TYPE_INT64
  | Double _ => DBUS_TYPE_DOUBLE
  end.

(** What a container holds; a basic value holds nothing. *)
Definition contents (v : value) : list value :=
  match v with
  | Variant inner => [inner]
  | Array elems => elems
  | DictEntry key val => [key; val]
  | Struct fields => fields
  | _ => []
  end.

Definition dbus_message_iter_init (msg : DBusMessage) : DBusMessageIter := msg.

Definition dbus_message_iter_get_arg_type (iter : DBusMessageIter) : dbus_type :=
  match iter with
  | [] => DBUS_TYPE_INVALID
  | v :: _ => type_of v
  end.

Definition dbus_message_iter_recurse (iter : DBusMessageIter) : DBusMessageIter :=
  match iter with
  | [] => []
  | v :: _ => contents v
  end.

End DBus.
Import DBus.

(** ** Iterator helpers of [utils.c]

    Each helper takes the iterator by pointer and answers with a
    [dbus_bool_t]: here it returns the answer together with the iterator it
    leaves behind. *)

Definition iter_step : Type := DBusMessageIter -> bool * DBusMessageIter.

(** C's short-circuit [&&] over two helpers sharing one iterator. *)
Definition and_then (p q : iter_step) : iter_step :=
  fun iter =>
    let (ok, iter') := p iter in
    if ok then q iter' else (false, iter').

Notation "p &&> q" := (and_then p q) (at level 41, right associativity).

(** Modelled from the spec: [iter_try_step_into_type] of [utils.c], which
    is not among the sources: "unwrap one layer", a step that is "fallible
    and short-circuits on mismatch".  When the value under the cursor has
    the expected type the iterator moves to its contents. *)
Definition iter_try_step_into_type (type : dbus_type) : iter_step :=
  fun iter =>
    if dbus_type_eqb (dbus_message_iter_get_arg_type iter) type
    then (true, dbus_message_iter_recurse iter)
    else (false, iter).

(** Modelled from the spec: [iter_try_step_to_key] of [utils.c], which is
    not among the sources: "linear-scan the array's dict-entries for one
    whose key string equals the target"; on success the iterator stands on
    that entry's value. *)
Fixpoint iter_try_step_to_key (key : string) (iter : DBusMessageIter)
  : bool * DBusMessageIter :=
  match iter with
  | [] => (false, [])
  | DictEntry (Str k) val :: rest =>
      if String.eqb k key then (true, [val]) else iter_try_step_to_key key rest
  | _ :: rest => iter_try_step_to_key key rest
  end.

(** Modelled from the spec: [iter_get_string] of [utils.c], which is not
    among the sources: "read the terminal node as a string", null when the
    node is not a string. *)
Definition iter_get_string (iter : DBusMessageIter) : option string :=
  match iter with
  | Str s :: _ => Some s
  | _ => None
  end.

(** ** Constants of [spotifyctl.c] *)

Definition METADATA_TITLE_KEY : string := "xesam:title".
Definition METADATA_ARTIST_KEY : string := "xesam:artist".

Definition TOKEN_TITLE : string := "%title%".
Definition TOKEN_ARTIST : string := "%artist%".
Definition DEFAULT_FORMAT_TEMPLATE : string := "%artist%: %title%".
Definition DEFAULT_PLACEHOLDER : string := "Spotify".

Definition MSG_TRUNC_TITLE : string :=
  "Failed to truncate title. Please make sure the trunc string is smaller than the max title length."
  ++ newline.
Definition MSG_TRUNC_ARTIST : string :=
  "Failed to truncate artist. Please make sure the trunc string is smaller than the max artist length."
  ++ newline.
Definition MSG_TRUNC_OUTPUT : string :=
  "Failed to truncate output. Please make sure the trunc string is smaller than the max output length."
  ++ newline.

(** ** The field extractor (spotifyctl.c, lines 93-164) *)

(** [variant->array[xesam:title]->variant->string]. *)
Definition get_song_title_from_metadata (msg : DBusMessage) : option string :=
  let iter := dbus_message_iter_init msg in
  let (ok, iter') :=
    (iter_try_step_into_type DBUS_TYPE_VARIANT &&>
     iter_try_step_into_type DBUS_TYPE_ARRAY &&>
     iter_try_step_to_key METADATA_TITLE_KEY &&>
     iter_try_step_into_type DBUS_TYPE_VARIANT) iter in
  if ok then iter_get_string iter' else None.

(** The same path with one more array to step into. *)
Definition get_song_artist_from_metadata (msg : DBusMessage) : option string :=
  let iter := dbus_message_iter_init msg in
  let (ok, iter') :=
    (iter_try_step_into_type DBUS_TYPE_VARIANT &&>
     iter_try_step_into_type DBUS_TYPE_ARRAY &&>
     iter_try_step_to_key METADATA_ARTIST_KEY &&>
     iter_try_step_into_type DBUS_TYPE_VARIANT &&>
     iter_try_step_into_type DBUS_TYPE_ARRAY) iter in
  if ok then iter_get_string iter' else None.

(** ** The formatter (spotifyctl.c, lines 166-256)

    Memory allocation is taken to succeed. *)

(** How a call ends. *)
Inductive outcome : Type :=
| Returned (output : string)
    (** the function returns this string *)
| Exited (status : Z) (stderr : string)
    (** [exit(status)], after writing [stderr] (empty: nothing written) *)
| NullPassed (callee : string)
    (** a null pointer is handed to [callee] where it takes a string:
        undefined behaviour *).

(** Lines 189-199: the counts, the differences and the estimate, each
    stored in a [const int]. *)
Definition TOTAL_UNTRUNC_LENGTH (artist title format : string) : Z :=
  let NUM_OF_ARTIST_TOK := num_of_matches format TOKEN_ARTIST in
  let NUM_OF_TITLE_TOK := num_of_matches format TOKEN_TITLE in
  let ARTIST_REPL_DIFF := to_int (strlen artist - strlen TOKEN_ARTIST) in
  let TITLE_REPL_DIFF := to_int (strlen title - strlen TOKEN_TITLE) in
  to_int (strlen format +
          to_int (NUM_OF_ARTIST_TOK * ARTIST_REPL_DIFF) +
          to_int (NUM_OF_TITLE_TOK * TITLE_REPL_DIFF)).

(** The three ways through the function body. *)
Inductive branch : Type :=
| PlaceholderCase
| TruncationBranch
| PlainBranch.

(** Lines 175-178 and 203: which way a call goes. *)
Definition format_branch (artist title : string) (max_length : Z)
  (format : string) : branch :=
  let artist_len := to_int (strlen artist) in
  let title_len := to_int (strlen title) in
  if (artist_len =? 0) && (title_len =? 0) then PlaceholderCase
  else if (max_length =? INT_MAX)
          || (TOTAL_UNTRUNC_LENGTH artist title format >? max_length)
       then TruncationBranch
       else PlainBranch.

(** Lines 204-246.  [SUPPRESS_ERRORS] is the global flag set by [-q]. *)
Definition format_truncating (SUPPRESS_ERRORS : bool) (artist title : string)
  (max_artist_length max_title_length max_length : Z)
  (format trunc : string) : outcome :=
  let trunc_title := str_trunc title max_title_length trunc in
  match trunc_title, SUPPRESS_ERRORS with
  | None, false => Exited 1 MSG_TRUNC_TITLE
  | _, _ =>
    match str_trunc artist max_artist_length trunc with
    | None => Exited 1 (if SUPPRESS_ERRORS then "" else MSG_TRUNC_ARTIST)
    | Some trunc_artist =>
      let temp := str_replace_all format TOKEN_ARTIST trunc_artist in
      match trunc_title with
      | None => NullPassed "str_replace_all"
      | Some trunc_title' =>
        let temp2 := str_replace_all temp TOKEN_TITLE trunc_title' in
        match str_trunc temp2 max_length trunc with
        | None => Exited 1 (if SUPPRESS_ERRORS then "" else MSG_TRUNC_OUTPUT)
        | Some output => Returned output
        end
      end
    end
  end.

(** Lines 248-253. *)
Definition format_plain (artist title format : string) : outcome :=
  let temp := str_replace_all format TOKEN_ARTIST artist in
  Returned (str_replace_all temp TOKEN_TITLE title).

Definition format_output (SUPPRESS_ERRORS : bool)
  (artist title : option string)
  (max_artist_length max_title_length max_length : Z)
  (format trunc : string) : outcome :=
  match artist with
  | None => NullPassed "strlen"
  | Some artist' =>
    match title with
    | None => NullPassed "strlen"
    | Some title' =>
      match format_branch artist' title' max_length format with
      | PlaceholderCase => Returned DEFAULT_PLACEHOLDER
      | TruncationBranch =>
          format_truncating SUPPRESS_ERRORS artist' title'
            max_artist_length max_title_length max_length format trunc
      | PlainBranch => format_plain artist' title' format
      end
    end
  end.

(** What is left of an outcome when the text written to [stderr] is
    disregarded. *)
Definition without_stderr (o : outcome) : outcome :=
  match o with
  | Exited status _ => Exited status ""
  | _ => o
  end.

(** ** [get_status] after the round trip (spotifyctl.c, lines 287-293)

    [reply] is the message the bus answered with; a [Returned] string is
    what [puts] prints. *)
Definition get_status (SUPPRESS_ERRORS : bool) (reply : DBusMessage)
  (max_artist_length max_title_length max_length : Z)
  (format trunc : string) : outcome :=
  let title := get_song_title_from_metadata reply in
  let artist := get_song_artist_from_metadata reply in
  format_output SUPPRESS_ERRORS artist title
    max_artist_length max_title_length max_length format trunc.

(** ** The extraction contract, in the words of the specification

    "Unwrap one variant layer, unwrap one array layer, linear-scan the
    array's dict-entries for one whose key string equals the target, unwrap
    that entry's value variant, (for the artist path only) unwrap one
    further array layer, read the terminal node as a string."  [None]
    wherever a step finds something else. *)

Fixpoint find_entry (key : string) (entries : list value) : option value :=
  match entries with
  | [] => None
  | DictEntry (Str k) val :: rest =>
      if String.eqb k key then Some val else find_entry key rest
  | _ :: rest => find_entry key rest
  end.

Definition read_string (node : value) : option string :=
  match node with
  | Str s => Some s
  | _ => None
  end.

Definition read_first_string (node : value) : option string :=
  match node with
  | Array (first :: _) => read_string first
  | _ => None
  end.

Definition extract_field_spec (artist_path : bool) (key : string)
  (reply : DBusMessage) : option string :=
  match reply with
  | Variant (Array entries) :: _ =>
      match find_entry key entries with
      | Some (Variant node) =>
          if artist_path then read_first_string node else read_string node
      | _ => None
      end
  | _ => None
  end.

(** ** The formatting steps, in the words of the specification *)

(** Step 2: "Estimated total length after substitution =
    [len(template) + A*artist_delta + T*title_delta]", over the integers. *)
Definition estimated_total_length (artist title format : string) : Z :=
  strlen format
  + num_of_matches format TOKEN_ARTIST * (strlen artist - strlen TOKEN_ARTIST)
  + num_of_matches format TOKEN_TITLE * (strlen title - strlen TOKEN_TITLE).

(** Step 3: "truncation is applied whenever [max_total_length] is
    unbounded or the estimated total length exceeds [max_total_length]". *)
Definition truncation_applies (artist title : string) (max_length : Z)
  (format : string) : bool :=
  (max_length =? INT_MAX)
  || (estimated_total_length artist title format >? max_length).

(** Both tokens substituted into the template, the artist's first as in
    lines 229-230 and 249-250. *)
Definition substitute_tokens (format artist title : string) : string :=
  str_replace_all (str_replace_all format TOKEN_ARTIST artist) TOKEN_TITLE title.

(** Step 4: "independently truncate the artist to [max_artist_length] and
    the title to [max_title_length]; substitute both tokens into the
    template; then truncate the entire substituted string to
    [max_total_length] using the same algorithm". *)
Definition truncation_steps_spec (artist title : string)
  (max_artist_length max_title_length max_length : Z)
  (format trunc : string) : option string :=
  match str_trunc artist max_artist_length trunc,
        str_trunc title max_title_length trunc with
  | Some trunc_artist, Some trunc_title =>
      str_trunc (substitute_tokens format trunc_artist trunc_title)
        max_length trunc
  | _, _ => None
  end.

(** ** Templates built from text and tokens *)

Inductive piece : Type :=
| Text (s : string)
| ArtistToken
| TitleToken.

(** The pieces in order, with [artist] written for every artist token and
    [title] for every title token. *)
Fixpoint render (artist title : string) (pieces : list piece) : string :=
  match pieces with
  | [] => EmptyString
  | Text s :: rest => s ++ render artist title rest
  | ArtistToken :: rest => artist ++ render artist title rest
  | TitleToken :: rest => title ++ render artist title rest
  end.

(** The template itself: every token written as its literal. *)
Definition template_of (pieces : list piece) : string :=
  render TOKEN_ARTIST TOKEN_TITLE pieces.

Definition percent : ascii := "%"%char.

(** No text piece holds a '%', and no title token is directly followed by
    [artist%] (where the scan for the artist token would start a match on
    the title token's closing '%'). *)
Fixpoint well_formed (pieces : list piece) : bool :=
  match pieces with
  | [] => true
  | Text s :: rest => free_of percent s && well_formed rest
  | ArtistToken :: rest => well_formed rest
  | TitleToken :: rest =>
      negb (prefix "artist%" (template_of rest)) && well_formed rest
  end.

(** A value that holds no '%' and is not a run of consecutive characters
    of [word] (the empty string is a run of every word). *)
Definition clear_of (word value : string) : bool :=
  free_of percent value && negb (str_contains word value).

(** The artist must not be a piece of "artist"; the title, which the
    second pass writes into the result of the first, neither of "artist"
    nor of "title". *)
Definition artist_value_ok (value : string) : bool :=
  clear_of "artist" value.

Definition title_value_ok (value : string) : bool :=
  clear_of "artist" value && clear_of "title" value.

(** ** The command line and the session bus (spotifyctl.c, lines 29-73 and
    302-536) *)

Module Cli.

Inductive ProgMode : Type :=
| MODE_NONE
| MODE_STATUS
| MODE_PLAY
| MODE_PAUSE
| MODE_PREVIOUS
| MODE_NEXT
| MODE_PLAYPAUSE.

Definition PARAMETERS : list string :=
  ["-q"; "--max-artist-length"; "--max-title-length"; "--max-length";
   "--format"; "--trunc"; "status"; "play"; "pause"; "playpause"; "next";
   "previous"; "help"].

Inductive PARAMETER_IDENTIFIER : Type :=
| PARAM_SUPRESS_ERRORS
| PARAM_MAX_ARTIST_LENGTH
| PARAM_MAX_TITLE_LENGTH
| PARAM_MAX_LENGTH
| PARAM_FORMAT
| PARAM_TRUNC
| PARAM_STATUS
| PARAM_PLAY
| PARAM_PAUSE
| PARAM_PLAYPAUSE
| PARAM_NEXT
| PARAM_PREVIOUS
| PARAM_HELP.

(** The enumerator whose value is [j]. *)
Definition identifier_of_value (j : nat) : option PARAMETER_IDENTIFIER :=
  match j with
  | 0%nat => Some PARAM_SUPRESS_ERRORS
  | 1%nat => Some PARAM_MAX_ARTIST_LENGTH
  | 2%nat => Some PARAM_MAX_TITLE_LENGTH
  | 3%nat => Some PARAM_MAX_LENGTH
  | 4%nat => Some PARAM_FORMAT
  | 5%nat => Some PARAM_TRUNC
  | 6%nat => Some PARAM_STATUS
  | 7%nat => Some PARAM_PLAY
  | 8%nat => Some PARAM_PAUSE
  | 9%nat => Some PARAM_PLAYPAUSE
  | 10%nat => Some PARAM_NEXT
  | 11%nat => Some PARAM_PREVIOUS
  | 12%nat => Some PARAM_HELP
  | _ => None
  end.

(** Lines 408-413: the first [j] from [from] on with
    [strcmp(arg, PARAMETERS[j]) == 0]. *)
Fixpoint first_match (arg : string) (parameters : list string) (from : nat)
  : option nat :=
  match parameters with
  | [] => None
  | p :: rest =>
      if String.eqb arg p then Some from else first_match arg rest (S from)
  end.

(** Lines 406-415: the identifier the [switch] sees; [None] is the [-1]
    that falls to [default]. *)
Definition param_index (arg : string) : option PARAMETER_IDENTIFIER :=
  match first_match arg PARAMETERS 0 with
  | Some j => identifier_of_value j
  | None => None
  end.

(** [atoi] of the C library: leading white space, an optional sign, then
    decimal digits up to the first other character.  [atoi_value] is the
    number so written.  Where it fits an [int] that is what [atoi]
    returns; beyond, the C standard leaves the result undefined, and the
    model does what glibc does on a target with a 64-bit [long]:
    [(int) strtol(s, NULL, 10)], with [strtol] stopping at [LONG_MAX] and
    [LONG_MIN]. *)
Definition isspace (c : ascii) : bool :=
  let n := nat_of_ascii c in
  Nat.eqb n 32 || (Nat.leb 9 n && Nat.leb n 13).

Definition digit_value (c : ascii) : option Z :=
  let n := Z.of_nat (nat_of_ascii c) in
  if (48 <=? n) && (n <=? 57) then Some (n - 48) else None.

Fixpoint skip_spaces (s : string) : string :=
  match s with
  | String c s' => if isspace c then skip_spaces s' else s
  | EmptyString => EmptyString
  end.

Fixpoint digits_value (acc : Z) (s : string) : Z :=
  match s with
  | String c s' =>
      match digit_value c with
      | Some d => digits_value (10 * acc + d) s'
      | None => acc
      end
  | EmptyString => acc
  end.

Definition atoi_value (s : string) : Z :=
  match skip_spaces s with
  | String "-" digits => - digits_value 0 digits
  | String "+" digits => digits_value 0 digits
  | digits => digits_value 0 digits
  end.

Definition LONG_MAX : Z := 2 ^ 63 - 1.
Definition LONG_MIN : Z := - 2 ^ 63.

Definition strtol (s : string) : Z :=
  Z.max LONG_MIN (Z.min LONG_MAX (atoi_value s)).

Definition atoi (s : string) : Z := to_int (strtol s).

(** The variables of [main] that the options set, and the global
    [SUPPRESS_ERRORS]; a [char*] that may be null is an [option]. *)
Record options : Type := {
  prog_mode : ProgMode;
  max_artist_length : Z;
  max_title_length : Z;
  max_length : Z;
  status_format : option string;
  trunc : option string;
  SUPPRESS_ERRORS : bool
}.

(** Lines 91 and 394-399. *)
Definition default_options : options :=
  {| prog_mode := MODE_NONE;
     max_artist_length := INT_MAX;
     max_title_length := INT_MAX;
     max_length := INT_MAX;
     status_format := Some DEFAULT_FORMAT_TEMPLATE;
     trunc := Some "...";
     SUPPRESS_ERRORS := false |}.

Definition set_prog_mode (m : ProgMode) (o : options) : options :=
  {| prog_mode := m;
     max_artist_length := max_artist_length o;
     max_title_length := max_title_length o;
     max_length := max_length o;
     status_format := status_format o;
     trunc := trunc o;
     SUPPRESS_ERRORS := SUPPRESS_ERRORS o |}.

Definition set_max_artist_length (n : Z) (o : options) : options :=
  {| prog_mode := prog_mode o;
     max_artist_length := n;
     max_title_length := max_title_length o;
     max_length := max_length o;
     status_format := status_format o;
     trunc := trunc o;
     SUPPRESS_ERRORS := SUPPRESS_ERRORS o |}.

Definition set_max_title_length (n : Z) (o : options) : options :=
  {| prog_mode := prog_mode o;
     max_artist_length := max_artist_length o;
     max_title_length := n;
     max_length := max_length o;
     status_format := status_format o;
     trunc := trunc o;
     SUPPRESS_ERRORS := SUPPRESS_ERRORS o |}.

Definition set_max_length (n : Z) (o : options) : options :=
  {| prog_mode := prog_mode o;
     max_artist_length := max_artist_length o;
     max_title_length := max_title_length o;
     max_length := n;
     status_format := status_format o;
     trunc := trunc o;
     SUPPRESS_ERRORS := SUPPRESS_ERRORS o |}.

Definition set_status_format (f : option string) (o : options) : options :=
  {| prog_mode := prog_mode o;
     max_artist_length := max_artist_length o;
     max_title_length := max_title_length o;
     max_length := max_length o;
     status_format := f;
     trunc := trunc o;
     SUPPRESS_ERRORS := SUPPRESS_ERRORS o |}.

Definition set_trunc (t : option string) (o : options) : options :=
  {| prog_mode := prog_mode o;
     max_artist_length := max_artist_length o;
     max_title_length := max_title_length o;
     max_length := max_length o;
     status_format := status_format o;
     trunc := t;
     SUPPRESS_ERRORS := SUPPRESS_ERRORS o |}.

Definition set_SUPPRESS_ERRORS (b : bool) (o : options) : options :=
  {| prog_mode := prog_mode o;
     max_artist_length := max_artist_length o;
     max_title_length := max_title_length o;
     max_length := max_length o;
     status_format := status_format o;
     trunc := trunc o;
     SUPPRESS_ERRORS := b |}.

(** Lines 320-387: the lines [print_usage] hands to [puts]. *)
Definition USAGE_LINES : list string :=
  [
   "usage: spotifyctl [ -q ] [options] <command>";
   "";
   "  Commands:";
   "    play           Play spotify";
   "    pause          Pause spotify";
   "    playpause      Toggle the play/pause state on spotify";
   "    next           Go to the next track on spotify";
   "    previous       Go to the previous track on spotify";
   "    status         Print the status of spotify including the track";
   "                   title and artist name.";
   "";
   "  Options:";
   "    --max-artist-length       The maximum length of the artist name";
   "                              to show. If max-length is specified,";
   "                              This will only restrict the length if";
   "                              the output length is longer than";
   "                              max-length";
   "                                Default: No limit";
   "    --max-title-length        The maximum length of the track title";
   "                              to show. If max-length is specified,";
   "                              This will only restrict the length if";
   "                              the output length is longer than";
   "                              max-length";
   "                                Default: No limit";
   "    --max-length              The maximum length of the output of";
   "                              the status command. This value works";
   "                              best as the sum of the max artist and";
   "                              max title length if those are";
   "                              specified.";
   "                              Default: No limit";
   "    --format                  The format to display the status in.";
   "                              The %artist% and %title% tokens will";
   "                              be replaced by the artist name and";
   "                                Default: '%artist%: %title%'";
   "                              track title, respectively.";
   "    --trunc                   The string to use to show that the";
   "                              artist name, track title, or output";
   "                              was longer than the max length";
   "                              specified. This will count towards";
   "                              the max lengths. This can be blank.";
   "                                Default: '...'";
   "    -q                        Hide errors";
   "";
   "  Examples:";
   "    spotifyctl status --format '%artist%: %title%' \";
   "        --max-length 30 --max-artist-length 10 \";
   "        --max-title-length 20 --trunc '...'";
   "    If artist name is 'Eminem' and track title is";
   "    'Sing For The Moment', the output will be:";
   "    Eminem: Sing For The Moment";
   "    since the total length is less than 30 characters.";
   "";
   "    spotifyctl status --format '%artist%: %title%' \";
   "        --max-length 20 --max-artist-length 10 \";
   "        --max-title-length 10 --trunc '...'";
   "    If artist name is 'Eminem' and track title is";
   "    'Sing For The Moment', the output will be:";
   "    Eminem: Sing Fo...";
   "    since the total length is less than 30 characters.";
   "";
   "    spotifyctl status --format '%artist%: %title%' \";
   "        --max-title-length 13 --trunc '...'";
   "    If artist name is 'Eminem' and track title is";
   "    'Sing For The Moment', the output will be:";
   "    Eminem: Sing For T...";
   "    since the total length is less than 30 characters."
  ].

Fixpoint puts_all (lines : list string) : string :=
  match lines with
  | [] => EmptyString
  | l :: rest => l ++ newline ++ puts_all rest
  end.

Definition print_usage : string := puts_all USAGE_LINES.

Definition MSG_ARTIST_LENGTH : string :=
  "Artist length must be a positive integer!" ++ newline.
Definition MSG_TITLE_LENGTH : string :=
  "Title length must be a positive integer!" ++ newline.
Definition MSG_MAX_LENGTH : string :=
  "Max length must be a positive integer!" ++ newline.
Definition MSG_TRY_HELP : string :=
  "Try 'spotifyctl help' for more information" ++ newline.
Definition MSG_NO_COMMAND : string :=
  "No command specified" ++ newline ++ MSG_TRY_HELP.

(** Lines 481-483. *)
Definition invalid_option (arg : string) : string :=
  "Invalid option '" ++ arg ++ "'" ++ newline
  ++ "usage: spotifyctl [ -q ] [options] <command>" ++ newline
  ++ MSG_TRY_HELP.

(** How the option loop ends. *)
Inductive parse_result : Type :=
| Parsed (o : options)
    (** the loop ran to the end of [argv] *)
| Return (status : Z) (stdout stderr : string)
    (** [main] returned from inside the loop *)
| NullToAtoi
    (** [argv[argc]], a null pointer, was handed to [atoi] *).

(** Lines 405-487, over [argv[i]], [argv[i+1]], ...  An option that takes
    a value reads [argv[++i]]; behind the last argument that is the null
    pointer [argv[argc]]. *)
Fixpoint parse_args (args : list string) (o : options) : parse_result :=
  match args with
  | [] => Parsed o
  | arg :: rest =>
    match param_index arg with
    | Some PARAM_SUPRESS_ERRORS =>
        parse_args rest (set_SUPPRESS_ERRORS true o)
    | Some PARAM_MAX_ARTIST_LENGTH =>
        match rest with
        | [] => NullToAtoi
        | value :: rest' =>
            if atoi value <=? 0 then Return 1 "" MSG_ARTIST_LENGTH
            else parse_args rest' (set_max_artist_length (atoi value) o)
        end
    | Some PARAM_MAX_TITLE_LENGTH =>
        match rest with
        | [] => NullToAtoi
        | value :: rest' =>
            if atoi value <=? 0 then Return 1 "" MSG_TITLE_LENGTH
            else parse_args rest' (set_max_title_length (atoi value) o)
        end
    | Some PARAM_MAX_LENGTH =>
        match rest with
        | [] => NullToAtoi
        | value :: rest' =>
            if atoi value <=? 0 then Return 1 "" MSG_MAX_LENGTH
            else parse_args rest' (set_max_length (atoi value) o)
        end
    | Some PARAM_FORMAT =>
        match rest with
        | [] => Parsed (set_status_format None o)
        | value :: rest' => parse_args rest' (set_status_format (Some value) o)
        end
    | Some PARAM_TRUNC =>
        match rest with
        | [] => Parsed (set_trunc None o)
        | value :: rest' => parse_args rest' (set_trunc (Some value) o)
        end
    | Some PARAM_STATUS => parse_args rest (set_prog_mode MODE_STATUS o)
    | Some PARAM_PLAY => parse_args rest (set_prog_mode MODE_PLAY o)
    | Some PARAM_PAUSE => parse_args rest (set_prog_mode MODE_PAUSE o)
    | Some PARAM_PLAYPAUSE => parse_args rest (set_prog_mode MODE_PLAYPAUSE o)
    | Some PARAM_NEXT => parse_args rest (set_prog_mode MODE_NEXT o)
    | Some PARAM_PREVIOUS => parse_args rest (set_prog_mode MODE_PREVIOUS o)
    | Some PARAM_HELP => Return 0 print_usage ""
    | None => Return 1 "" (invalid_option arg)
    end
  end.

(** What the session bus does during one run: [dbus_bus_get] gives a
    connection ([None]) or fails with a message; the [Get] of the
    [Metadata] property is answered with a reply or fails with a message;
    the call of a player method may fail with a message. *)
Record bus : Type := {
  bus_get_error : option string;
  metadata_reply : string + DBusMessage;
  player_error : string -> option string
}.

Definition STATUS_METHOD : string := "Get".
Definition PLAYER_METHOD_PLAY : string := "Play".
Definition PLAYER_METHOD_PAUSE : string := "Pause".
Definition PLAYER_METHOD_PLAYPAUSE : string := "PlayPause".
Definition PLAYER_METHOD_NEXT : string := "Next".
Definition PLAYER_METHOD_PREVIOUS : string := "Previous".

(** How a run of the program ends, with the methods it called on the bus
    in order. *)
Inductive run : Type :=
| Finished (status : Z) (stdout stderr : string) (calls : list string)
| Undefined (callee : string) (calls : list string)
    (** a null pointer was handed to [callee] *).

Definition calls_of (r : run) : list string :=
  match r with
  | Finished _ _ _ calls => calls
  | Undefined _ calls => calls
  end.

(** [format_output] as [get_status] calls it, the template and the marker
    being pointers that [main] may have left null: line 189 is the first
    to use the template, line 208 the first to use the marker. *)
Definition format_output_ptr (suppress : bool)
  (artist title : option string)
  (max_artist max_title max_total : Z)
  (format marker : option string) : outcome :=
  match format, marker with
  | Some format', Some marker' =>
      format_output suppress artist title
        max_artist max_title max_total format' marker'
  | _, _ =>
    match artist, title with
    | Some artist', Some title' =>
        if (to_int (strlen artist') =? 0) && (to_int (strlen title') =? 0)
        then Returned DEFAULT_PLACEHOLDER
        else
          match format with
          | None => NullPassed "num_of_matches"
          | Some format' =>
              match format_branch artist' title' max_total format' with
              | TruncationBranch => NullPassed "str_trunc"
              | _ => format_plain artist' title' format'
              end
          end
    | _, _ => NullPassed "strlen"
    end
  end.

(** Lines 258-300: [get_status] with its round trip.  [puts] ends the
    line it prints. *)
Definition get_status_call (b : bus) (o : options) : run :=
  match metadata_reply b with
  | inl message =>
      Finished 1 "" (if SUPPRESS_ERRORS o then "" else message) [STATUS_METHOD]
  | inr reply =>
      let title := get_song_title_from_metadata reply in
      let artist := get_song_artist_from_metadata reply in
      match format_output_ptr (SUPPRESS_ERRORS o) artist title
              (max_artist_length o) (max_title_length o) (max_length o)
              (status_format o) (trunc o) with
      | Returned output => Finished 0 (output ++ newline) "" [STATUS_METHOD]
      | Exited status message => Finished status "" message [STATUS_METHOD]
      | NullPassed callee => Undefined callee [STATUS_METHOD]
      end
  end.

(** Lines 302-318. *)
Definition spotify_player_call (b : bus) (o : options) (method : string)
  : run :=
  match player_error b method with
  | Some message =>
      Finished 1 "" (if SUPPRESS_ERRORS o then "" else message) [method]
  | None => Finished 0 "" "" [method]
  end.

(** Lines 489-535: the connection and the command. *)
Definition dispatch (b : bus) (o : options) : run :=
  match bus_get_error b with
  | Some message =>
      Finished 1 "" (if SUPPRESS_ERRORS o then "" else message) []
  | None =>
      match prog_mode o with
      | MODE_NONE => Finished 1 "" MSG_NO_COMMAND []
      | MODE_STATUS => get_status_call b o
      | MODE_PLAY => spotify_player_call b o PLAYER_METHOD_PLAY
      | MODE_PAUSE => spotify_player_call b o PLAYER_METHOD_PAUSE
      | MODE_PLAYPAUSE => spotify_player_call b o PLAYER_METHOD_PLAYPAUSE
      | MODE_NEXT => spotify_player_call b o PLAYER_METHOD_NEXT
      | MODE_PREVIOUS => spotify_player_call b o PLAYER_METHOD_PREVIOUS
      end
  end.

(** Lines 389-536.  [argv] starts with the program's name. *)
Definition main (argv : list string) (b : bus) : run :=
  match parse_args (List.tl argv) default_options with
  | Parsed o => dispatch b o
  | Return status stdout stderr => Finished status stdout stderr []
  | NullToAtoi => Undefined "atoi" []
  end.

(** *** Command lines, item by item *)

Inductive command : Type :=
| Status | Play | Pause | PlayPause | Next | Previous.

Definition command_word (c : command) : string :=
  match c with
  | Status => "status"
  | Play => "play"
  | Pause => "pause"
  | PlayPause => "playpause"
  | Next => "next"
  | Previous => "previous"
  end.

Definition command_mode (c : command) : ProgMode :=
  match c with
  | Status => MODE_STATUS
  | Play => MODE_PLAY
  | Pause => MODE_PAUSE
  | PlayPause => MODE_PLAYPAUSE
  | Next => MODE_NEXT
  | Previous => MODE_PREVIOUS
  end.

Definition command_method (c : command) : string :=
  match c with
  | Status => STATUS_METHOD
  | Play => PLAYER_METHOD_PLAY
  | Pause => PLAYER_METHOD_PAUSE
  | PlayPause => PLAYER_METHOD_PLAYPAUSE
  | Next => PLAYER_METHOD_NEXT
  | Previous => PLAYER_METHOD_PREVIOUS
  end.

(** One thing a user writes on the command line: the flag, an option with
    its value, or a command. *)
Inductive item : Type :=
| Quiet
| MaxArtistLength (value : string)
| MaxTitleLength (value : string)
| MaxLength (value : string)
| Format (value : string)
| Trunc (value : string)
| Command (c : command).

Definition item_words (it : item) : list string :=
  match it with
  | Quiet => ["-q"]
  | MaxArtistLength value => ["--max-artist-length"; value]
  | MaxTitleLength value => ["--max-title-length"; value]
  | MaxLength value => ["--max-length"; value]
  | Format value => ["--format"; value]
  | Trunc value => ["--trunc"; value]
  | Command c => [command_word c]
  end.

Definition words (items : list item) : list string :=
  List.concat (List.map item_words items).

(** A length must be written as a positive number that fits an [int]. *)
Definition item_ok (it : item) : Prop :=
  match it with
  | MaxArtistLength value | MaxTitleLength value | MaxLength value =>
      0 < atoi_value value <= INT_MAX
  | _ => True
  end.

(** What the item asks for. *)
Definition apply_item (o : options) (it : item) : options :=
  match it with
  | Quiet => set_SUPPRESS_ERRORS true o
  | MaxArtistLength value => set_max_artist_length (atoi value) o
  | MaxTitleLength value => set_max_title_length (atoi value) o
  | MaxLength value => set_max_length (atoi value) o
  | Format value => set_status_format (Some value) o
  | Trunc value => set_trunc (Some value) o
  | Command c => set_prog_mode (command_mode c) o
  end.

Definition apply_items (items : list item) (o : options) : options :=
  List.fold_left apply_item items o.

(** The limits a finished loop leaves are positive. *)
Definition limits_positive (o : options) : Prop :=
  0 < max_artist_length o /\ 0 < max_title_length o /\ 0 < max_length o.

(** [-q] among the items. *)
Definition quiet (items : list item) : bool :=
  List.existsb (fun it => match it with Quiet => true | _ => false end) items.

(** The bus of the examples in the usage text: Spotify playing "Sing For
    The Moment" by Eminem. *)
Definition example_bus : bus :=
  {| bus_get_error := None;
     metadata_reply :=
       inr [Variant (Array
              [DictEntry (Str "xesam:artist") (Variant (Array [Str "Eminem"]));
               DictEntry (Str "xesam:title")
                 (Variant (Str "Sing For The Moment"))])];
     player_error := fun _ => None |}.

End Cli.

(** * Part II: lemmas and theorems *)

(** ** Arithmetic of [int] *)

Section IntFacts.

Lemma to_int_range z : INT_MIN <= to_int z <= INT_MAX.
Proof.
  unfold to_int, INT_MIN, INT_MAX.
  pose proof (Z.mod_pos_bound (z + 2 ^ 31) (2 ^ 32) ltac:(lia)). lia.
Qed.

Lemma to_int_id z : fits_int z -> to_int z = z.
Proof.
  unfold fits_int, to_int, INT_MIN, INT_MAX. intros H.
  rewrite Z.mod_small; lia.
Qed.

(** [to_int] only ever moves a value by a multiple of 2^32. *)
Lemma to_int_shift z k : to_int (z + k * 2 ^ 32) = to_int z.
Proof.
  unfold to_int.
  replace (z + k * 2 ^ 32 + 2 ^ 31) with (z + 2 ^ 31 + k * 2 ^ 32) by ring.
  now rewrite Z.mod_add by lia.
Qed.

Lemma to_int_congr z : exists k, to_int z = z + k * 2 ^ 32.
Proof.
  exists (- ((z + 2 ^ 31) / 2 ^ 32)). unfold to_int.
  rewrite Z.mod_eq by lia. ring.
Qed.

Lemma to_int_add_r a b : to_int (a + to_int b) = to_int (a + b).
Proof.
  destruct (to_int_congr b) as [k ->].
  now rewrite Z.add_assoc, to_int_shift.
Qed.

Lemma to_int_add_l a b : to_int (to_int a + b) = to_int (a + b).
Proof. now rewrite Z.add_comm, to_int_add_r, Z.add_comm. Qed.

Lemma to_int_mul_r a b : to_int (a * to_int b) = to_int (a * b).
Proof.
  destruct (to_int_congr b) as [k ->].
  replace (a * (b + k * 2 ^ 32)) with (a * b + (a * k) * 2 ^ 32) by ring.
  apply to_int_shift.
Qed.

End IntFacts.

(** ** Strings *)

Section StringFacts.

Lemma strlen_nonneg s : 0 <= strlen s.
Proof. unfold strlen. lia. Qed.

Lemma strlen_zero s : strlen s = 0 <-> s = "".
Proof.
  unfold strlen. destruct s; simpl; split; intros H; try reflexivity;
    try discriminate; lia.
Qed.

Lemma length_app (s t : string) :
  String.length (s ++ t) = (String.length s + String.length t)%nat.
Proof. induction s as [|c s IH]; simpl; [reflexivity | now rewrite IH]. Qed.

Lemma strlen_app s t : strlen (s ++ t) = strlen s + strlen t.
Proof. unfold strlen. rewrite length_app. lia. Qed.

Lemma str_app_assoc (s t u : string) : (s ++ t) ++ u = s ++ (t ++ u).
Proof. induction s as [|c s IH]; simpl; [reflexivity | now rewrite IH]. Qed.

Lemma length_take n s : String.length (take n s) = Nat.min n (String.length s).
Proof.
  revert s. induction n as [|n IH]; intros [|c s]; simpl; try reflexivity.
  now rewrite IH.
Qed.

Lemma skip_app u v : skip (String.length u) (u ++ v) = v.
Proof. induction u as [|c u IH]; simpl; [now destruct v | exact IH]. Qed.

Lemma prefix_app u v : prefix u (u ++ v) = true.
Proof.
  induction u as [|c u IH]; simpl.
  - now destruct v.
  - destruct (ascii_dec c c); [exact IH | congruence].
Qed.

Lemma prefix_cons a u b v :
  prefix (String a u) (String b v)
  = if ascii_dec a b then prefix u v else false.
Proof. reflexivity. Qed.

Lemma free_of_app c s t : free_of c (s ++ t) = free_of c s && free_of c t.
Proof.
  induction s as [|d s IH]; simpl; [reflexivity|].
  now rewrite IH, andb_assoc.
Qed.

Lemma free_of_take c n s : free_of c s = true -> free_of c (take n s) = true.
Proof.
  revert s. induction n as [|n IH]; intros [|d s]; simpl; try reflexivity.
  intros H. apply andb_true_iff in H as [-> H]. simpl. now apply IH.
Qed.

End StringFacts.

(** ** Truncation *)

Section Truncation.

Variables (s marker : string) (max_len : Z).

Lemma str_trunc_short :
  strlen s <= max_len -> str_trunc s max_len marker = Some s.
Proof.
  intros H. unfold str_trunc.
  replace (strlen s <=? max_len) with true by (symmetry; now apply Z.leb_le).
  now rewrite orb_true_r.
Qed.

Lemma str_trunc_unbounded : str_trunc s INT_MAX marker = Some s.
Proof. reflexivity. Qed.

Lemma str_trunc_cut :
  max_len <> INT_MAX -> max_len < strlen s -> strlen marker <= max_len ->
  str_trunc s max_len marker
  = Some (take (Z.to_nat (max_len - strlen marker)) s ++ marker).
Proof.
  intros Hb Hlong Hfit. unfold str_trunc.
  replace (max_len =? INT_MAX) with false by (symmetry; now apply Z.eqb_neq).
  replace (strlen s <=? max_len) with false by (symmetry; apply Z.leb_gt; lia).
  replace (strlen marker >? max_len) with false; [reflexivity|].
  symmetry. rewrite Z.gtb_ltb. apply Z.ltb_ge. lia.
Qed.

Lemma strlen_take_cut :
  max_len < strlen s -> strlen marker <= max_len ->
  strlen (take (Z.to_nat (max_len - strlen marker)) s)
  = max_len - strlen marker.
Proof.
  unfold strlen. intros Hlong Hfit. rewrite length_take. lia.
Qed.

(** Whatever [str_trunc] returns is the string itself or a cut of it
    followed by the marker. *)
Lemma str_trunc_shape r :
  str_trunc s max_len marker = Some r ->
  r = s \/ exists n, r = take n s ++ marker.
Proof.
  unfold str_trunc.
  destruct ((max_len =? INT_MAX) || (strlen s <=? max_len)).
  - intros [= <-]. now left.
  - destruct (strlen marker >? max_len); [discriminate|].
    intros [= <-]. right. now eexists.
Qed.

End Truncation.

(** C2. For every string [s], marker and bounded [max_len] with
    [max_len >= len(marker)], [str_trunc] succeeds, its result has length
    exactly [min(len(s), max_len)], and whenever [len(s) > max_len] the
    result is the first [max_len - len(marker)] characters of [s] followed
    by the whole marker, so it ends with the marker. *)
Theorem str_trunc_length_and_marker (s marker : string) (max_len : Z) :
  max_len <> INT_MAX ->
  strlen marker <= max_len ->
  exists r,
    str_trunc s max_len marker = Some r /\
    strlen r = Z.min (strlen s) max_len /\
    (max_len < strlen s ->
       r = take (Z.to_nat (max_len - strlen marker)) s ++ marker /\
       strlen (take (Z.to_nat (max_len - strlen marker)) s)
         = max_len - strlen marker /\
       ends_with r marker).
Proof.
  intros Hb Hfit.
  destruct (Z_le_gt_dec (strlen s) max_len) as [Hshort|Hlong].
  - exists s. rewrite str_trunc_short by assumption.
    repeat split; [lia | lia | lia | lia].
  - exists (take (Z.to_nat (max_len - strlen marker)) s ++ marker).
    rewrite str_trunc_cut by lia.
    pose proof (strlen_take_cut s marker max_len ltac:(lia) Hfit) as Hk.
    split; [reflexivity|]. split.
    + rewrite strlen_app, Hk. lia.
    + intros _. repeat split; [exact Hk|]. now eexists.
Qed.

Lemma str_trunc_length_and_marker_witness :
  exists r,
    str_trunc "Sing For The Moment" 10 "..." = Some r /\
    strlen r = Z.min (strlen "Sing For The Moment") 10 /\
    (10 < strlen "Sing For The Moment" ->
       r = take (Z.to_nat (10 - strlen "...")) "Sing For The Moment" ++ "..." /\
       strlen (take (Z.to_nat (10 - strlen "...")) "Sing For The Moment")
         = 10 - strlen "..." /\
       ends_with r "...").
Proof.
  apply (str_trunc_length_and_marker "Sing For The Moment" "..." 10).
  - unfold INT_MAX. lia.
  - vm_compute. discriminate.
Defined.

(** C8. [str_trunc s max_len marker] fails if and only if [max_len] is
    bounded, [max_len < len(marker)] and [len(s) > max_len]. *)
Theorem str_trunc_fails_iff (s marker : string) (max_len : Z) :
  str_trunc s max_len marker = None <->
  max_len <> INT_MAX /\ max_len < strlen marker /\ max_len < strlen s.
Proof.
  unfold str_trunc.
  destruct (Z.eqb_spec max_len INT_MAX) as [He|He]; simpl.
  - split; [discriminate | intros [H _]; contradiction].
  - destruct (Z.leb_spec (strlen s) max_len) as [Hs|Hs].
    + split; [discriminate | lia].
    + rewrite Z.gtb_ltb.
      destruct (Z.ltb_spec max_len (strlen marker)) as [Hm|Hm].
      * split; [intros _; repeat split; assumption | reflexivity].
      * split; [discriminate | lia].
Qed.

(** ** The field extractor *)

Section Extraction.

(** The key scan of [utils.c] finds what the linear scan of the contract
    finds, and leaves the iterator on it. *)
Lemma iter_try_step_to_key_find key entries :
  iter_try_step_to_key key entries =
  match find_entry key entries with
  | Some val => (true, [val])
  | None => (false, [])
  end.
Proof.
  induction entries as [|e rest IH]; simpl; [reflexivity|].
  destruct e as [ | | |k val| | | | | | ]; try exact IH.
  destruct k; try exact IH.
  destruct (String.eqb s key); [reflexivity | exact IH].
Qed.

Lemma get_song_title_refines reply :
  get_song_title_from_metadata reply
  = extract_field_spec false METADATA_TITLE_KEY reply.
Proof.
  unfold get_song_title_from_metadata, extract_field_spec, and_then,
    iter_try_step_into_type, dbus_message_iter_init.
  destruct reply as [|top rest]; [reflexivity|].
  destruct top as [ |inner| | | | | | | | ]; try reflexivity.
  destruct inner as [ | |entries| | | | | | | ]; try reflexivity.
  cbn [dbus_message_iter_get_arg_type dbus_message_iter_recurse type_of
       contents dbus_type_eqb].
  rewrite iter_try_step_to_key_find.
  destruct (find_entry METADATA_TITLE_KEY entries) as [val|]; [|reflexivity].
  destruct val as [ |node| | | | | | | | ]; try reflexivity.
Qed.

Lemma get_song_artist_refines reply :
  get_song_artist_from_metadata reply
  = extract_field_spec true METADATA_ARTIST_KEY reply.
Proof.
  unfold get_song_artist_from_metadata, extract_field_spec, and_then,
    iter_try_step_into_type, dbus_message_iter_init.
  destruct reply as [|top rest]; [reflexivity|].
  destruct top as [ |inner| | | | | | | | ]; try reflexivity.
  destruct inner as [ | |entries| | | | | | | ]; try reflexivity.
  cbn [dbus_message_iter_get_arg_type dbus_message_iter_recurse type_of
       contents dbus_type_eqb].
  rewrite iter_try_step_to_key_find.
  destruct (find_entry METADATA_ARTIST_KEY entries) as [val|]; [|reflexivity].
  destruct val as [ |node| | | | | | | | ]; try reflexivity.
  destruct node as [ | |elems| | | | | | | ]; reflexivity.
Qed.

End Extraction.

(** C7. For every reply, each extractor walks variant, array, the
    dict-entry whose key is the target, variant (and, for the artist only,
    one more array) and reads a string there: it is the contract
    [extract_field_spec], it answers [Some s] exactly when every wrapper on
    that path is present and the node reached is the string [s], and
    [None] (the type has no error case) otherwise. *)
Theorem extraction_navigates_or_none (reply : DBusMessage) :
  (get_song_title_from_metadata reply
     = extract_field_spec false METADATA_TITLE_KEY reply /\
   get_song_artist_from_metadata reply
     = extract_field_spec true METADATA_ARTIST_KEY reply) /\
  (forall s,
     get_song_title_from_metadata reply = Some s <->
     exists entries rest,
       reply = Variant (Array entries) :: rest /\
       find_entry METADATA_TITLE_KEY entries = Some (Variant (Str s))) /\
  (forall s,
     get_song_artist_from_metadata reply = Some s <->
     exists entries rest more,
       reply = Variant (Array entries) :: rest /\
       find_entry METADATA_ARTIST_KEY entries
         = Some (Variant (Array (Str s :: more)))).
Proof.
  split; [split; [apply get_song_title_refines | apply get_song_artist_refines]|].
  split; intros s.
  - rewrite get_song_title_refines. unfold extract_field_spec. split.
    + destruct reply as [|top rest]; [discriminate|].
      destruct top as [ |inner| | | | | | | | ]; try discriminate.
      destruct inner as [ | |entries| | | | | | | ]; try discriminate.
      destruct (find_entry METADATA_TITLE_KEY entries) as [val|] eqn:Hf;
        [|discriminate].
      destruct val as [ |node| | | | | | | | ]; try discriminate.
      destruct node; try discriminate.
      intros [= ->]. now exists entries, rest.
    + intros (entries & rest & -> & Hf). now rewrite Hf.
  - rewrite get_song_artist_refines. unfold extract_field_spec. split.
    + destruct reply as [|top rest]; [discriminate|].
      destruct top as [ |inner| | | | | | | | ]; try discriminate.
      destruct inner as [ | |entries| | | | | | | ]; try discriminate.
      destruct (find_entry METADATA_ARTIST_KEY entries) as [val|] eqn:Hf;
        [|discriminate].
      destruct val as [ |node| | | | | | | | ]; try discriminate.
      destruct node as [ | |elems| | | | | | | ]; try discriminate.
      destruct elems as [|first more]; [discriminate|].
      destruct first; try discriminate.
      intros [= ->]. now exists entries, rest, more.
    + intros (entries & rest & more & -> & Hf). now rewrite Hf.
Qed.

(** A reply as Spotify sends it, and the shapes that yield nothing. *)
Example extraction_examples :
  let reply :=
    [Variant (Array
       [DictEntry (Str "mpris:trackid") (Variant (ObjectPath "/track/1"));
        DictEntry (Str "mpris:length") (Variant (Int64 279000000));
        DictEntry (Str "xesam:artist") (Variant (Array [Str "Eminem"]));
        DictEntry (Str "xesam:title") (Variant (Str "Sing For The Moment"))])] in
  get_song_title_from_metadata reply = Some "Sing For The Moment" /\
  get_song_artist_from_metadata reply = Some "Eminem" /\
  get_song_title_from_metadata [] = None /\
  get_song_title_from_metadata [Str "xesam:title"] = None /\
  get_song_title_from_metadata [Variant (Str "xesam:title")] = None /\
  get_song_title_from_metadata [Variant (Array [])] = None /\
  get_song_title_from_metadata
    [Variant (Array [DictEntry (Str "xesam:title") (Str "bare")])] = None /\
  get_song_title_from_metadata
    [Variant (Array [DictEntry (Str "xesam:title") (Variant (Int32 7))])] = None /\
  get_song_artist_from_metadata
    [Variant (Array [DictEntry (Str "xesam:artist") (Variant (Str "bare"))])] = None /\
  get_song_artist_from_metadata
    [Variant (Array [DictEntry (Str "xesam:artist") (Variant (Array []))])] = None.
Proof. repeat split. Qed.

(** ** The formatter: which branch a call takes *)

Section Branch.

Variables (artist title format : string) (max_length : Z).

Lemma TOTAL_UNTRUNC_LENGTH_wraps_estimate :
  TOTAL_UNTRUNC_LENGTH artist title format
  = to_int (estimated_total_length artist title format).
Proof.
  unfold TOTAL_UNTRUNC_LENGTH, estimated_total_length. cbv zeta.
  rewrite !to_int_mul_r, to_int_add_r.
  set (da := num_of_matches format TOKEN_ARTIST * _).
  set (dt := num_of_matches format TOKEN_TITLE * _).
  replace (strlen format + to_int da + dt)
    with (to_int da + (strlen format + dt)) by ring.
  rewrite to_int_add_l. subst da dt. apply f_equal. ring.
Qed.

Lemma int_length_zero s :
  strlen s <= INT_MAX -> (to_int (strlen s) =? 0) = true <-> s = "".
Proof.
  intros H. rewrite to_int_id, Z.eqb_eq by
    (pose proof (strlen_nonneg s); unfold fits_int, INT_MIN; lia).
  apply strlen_zero.
Qed.

Hypothesis not_both_empty : ~ (artist = "" /\ title = "").
Hypothesis artist_fits : strlen artist <= INT_MAX.
Hypothesis title_fits : strlen title <= INT_MAX.
Hypothesis estimate_fits : fits_int (estimated_total_length artist title format).

Lemma format_branch_decision :
  format_branch artist title max_length format
  = if truncation_applies artist title max_length format
    then TruncationBranch else PlainBranch.
Proof.
  unfold format_branch, truncation_applies.
  rewrite TOTAL_UNTRUNC_LENGTH_wraps_estimate, (to_int_id _ estimate_fits).
  destruct (to_int (strlen artist) =? 0) eqn:Ha;
    destruct (to_int (strlen title) =? 0) eqn:Ht; try reflexivity.
  exfalso. apply not_both_empty. split.
  - now apply int_length_zero.
  - now apply int_length_zero.
Qed.

End Branch.

(** C1. For every artist and title that are not both empty, every
    template and every configuration, [format_output] goes through the
    truncation branch if and only if [max_length] is unbounded ([INT_MAX])
    or the estimate [len(template) + A*artist_delta + T*title_delta]
    exceeds [max_length]; otherwise it goes through the plain branch.  The
    lengths and the estimate are taken to fit an [int], the range in which
    the arithmetic of lines 175-199 is defined. *)
Theorem format_truncates_iff_unbounded_or_over
  (SUPPRESS_ERRORS : bool) (artist title : string)
  (max_artist_length max_title_length max_length : Z)
  (format trunc : string) :
  ~ (artist = "" /\ title = "") ->
  strlen artist <= INT_MAX ->
  strlen title <= INT_MAX ->
  fits_int (estimated_total_length artist title format) ->
  (format_branch artist title max_length format = TruncationBranch <->
   max_length = INT_MAX \/
   estimated_total_length artist title format > max_length) /\
  format_output SUPPRESS_ERRORS (Some artist) (Some title)
    max_artist_length max_title_length max_length format trunc
  = if truncation_applies artist title max_length format
    then format_truncating SUPPRESS_ERRORS artist title
           max_artist_length max_title_length max_length format trunc
    else format_plain artist title format.
Proof.
  intros Hne Ha Ht He.
  pose proof (format_branch_decision artist title format max_length
                Hne Ha Ht He) as Hb.
  split.
  - rewrite Hb. unfold truncation_applies.
    destruct (Z.eqb_spec max_length INT_MAX) as [Hm|Hm]; simpl.
    + split; [now left | reflexivity].
    + rewrite Z.gtb_ltb.
      destruct (Z.ltb_spec max_length
                  (estimated_total_length artist title format)) as [Hl|Hl].
      * split; [intros _; right; lia | reflexivity].
      * split; [discriminate | intros [H|H]; [contradiction | lia]].
  - unfold format_output. rewrite Hb.
    now destruct (truncation_applies artist title max_length format).
Qed.

Lemma format_truncates_iff_unbounded_or_over_witness :
  (format_branch "Eminem" "Sing For The Moment" 20 DEFAULT_FORMAT_TEMPLATE
     = TruncationBranch <->
   20 = INT_MAX \/
   estimated_total_length "Eminem" "Sing For The Moment"
     DEFAULT_FORMAT_TEMPLATE > 20) /\
  format_output false (Some "Eminem") (Some "Sing For The Moment")
    10 10 20 DEFAULT_FORMAT_TEMPLATE "..."
  = if truncation_applies "Eminem" "Sing For The Moment" 20
         DEFAULT_FORMAT_TEMPLATE
    then format_truncating false "Eminem" "Sing For The Moment"
           10 10 20 DEFAULT_FORMAT_TEMPLATE "..."
    else format_plain "Eminem" "Sing For The Moment" DEFAULT_FORMAT_TEMPLATE.
Proof.
  apply (format_truncates_iff_unbounded_or_over false
           "Eminem" "Sing For The Moment" 10 10 20
           DEFAULT_FORMAT_TEMPLATE "...").
  - intros [H _]. discriminate H.
  - vm_compute. discriminate.
  - vm_compute. discriminate.
  - split; vm_compute; discriminate.
Defined.

(** ** The formatter: the truncation branch *)

Section TruncationBranch.

Variables (SUPPRESS_ERRORS : bool) (artist title : string).
Variables (max_artist_length max_title_length max_length : Z).
Variables (format trunc : string).

Hypothesis truncating :
  format_branch artist title max_length format = TruncationBranch.

Lemma format_output_truncating :
  format_output SUPPRESS_ERRORS (Some artist) (Some title)
    max_artist_length max_title_length max_length format trunc
  = format_truncating SUPPRESS_ERRORS artist title
      max_artist_length max_title_length max_length format trunc.
Proof. unfold format_output. now rewrite truncating. Qed.

Lemma title_failure_reported :
  SUPPRESS_ERRORS = false ->
  str_trunc title max_title_length trunc = None ->
  format_output SUPPRESS_ERRORS (Some artist) (Some title)
    max_artist_length max_title_length max_length format trunc
  = Exited 1 MSG_TRUNC_TITLE.
Proof.
  intros Hs Ht. rewrite format_output_truncating.
  unfold format_truncating. now rewrite Ht, Hs.
Qed.

(** With [SUPPRESS_ERRORS] on, line 214's [exit] is skipped together with
    the message: the call goes on with a null [trunc_title]. *)
Lemma title_failure_suppressed_goes_on trunc_artist :
  SUPPRESS_ERRORS = true ->
  str_trunc title max_title_length trunc = None ->
  str_trunc artist max_artist_length trunc = Some trunc_artist ->
  format_output SUPPRESS_ERRORS (Some artist) (Some title)
    max_artist_length max_title_length max_length format trunc
  = NullPassed "str_replace_all".
Proof.
  intros Hs Ht Ha. rewrite format_output_truncating.
  unfold format_truncating. now rewrite Ht, Hs, Ha.
Qed.

Lemma artist_failure_exits :
  str_trunc artist max_artist_length trunc = None ->
  SUPPRESS_ERRORS = true
  \/ str_trunc title max_title_length trunc <> None ->
  format_output SUPPRESS_ERRORS (Some artist) (Some title)
    max_artist_length max_title_length max_length format trunc
  = Exited 1 (if SUPPRESS_ERRORS then "" else MSG_TRUNC_ARTIST).
Proof.
  intros Ha Hor. rewrite format_output_truncating.
  unfold format_truncating. rewrite Ha.
  destruct (str_trunc title max_title_length trunc) as [tt|];
    destruct SUPPRESS_ERRORS; try reflexivity.
  destruct Hor as [H|H]; [discriminate | contradiction].
Qed.

Lemma output_failure_exits trunc_artist trunc_title :
  str_trunc artist max_artist_length trunc = Some trunc_artist ->
  str_trunc title max_title_length trunc = Some trunc_title ->
  str_trunc (substitute_tokens format trunc_artist trunc_title)
    max_length trunc = None ->
  format_output SUPPRESS_ERRORS (Some artist) (Some title)
    max_artist_length max_title_length max_length format trunc
  = Exited 1 (if SUPPRESS_ERRORS then "" else MSG_TRUNC_OUTPUT).
Proof.
  intros Ha Ht Ho. rewrite format_output_truncating.
  unfold format_truncating. rewrite Ha, Ht.
  unfold substitute_tokens in Ho. cbv zeta. rewrite Ho.
  now destruct SUPPRESS_ERRORS.
Qed.

Lemma truncating_returns_iff_steps out :
  format_output SUPPRESS_ERRORS (Some artist) (Some title)
    max_artist_length max_title_length max_length format trunc
  = Returned out
  <-> truncation_steps_spec artist title
        max_artist_length max_title_length max_length format trunc
      = Some out.
Proof.
  rewrite format_output_truncating.
  unfold format_truncating, truncation_steps_spec, substitute_tokens.
  destruct (str_trunc title max_title_length trunc) as [tt|];
    destruct (str_trunc artist max_artist_length trunc) as [ta|];
    destruct SUPPRESS_ERRORS; cbv zeta;
    try (split; discriminate);
    destruct (str_trunc _ max_length trunc) as [o|];
    split; intros H; try discriminate; now inversion H.
Qed.

End TruncationBranch.

(** C3, as amended.  In the truncation branch a failed truncation of the
    artist or of the whole output ends the call with [exit(1)] and no
    output, and so does a failed truncation of the title when
    [SUPPRESS_ERRORS] is off; the message naming the budget is written to
    [stderr] only when [SUPPRESS_ERRORS] is off, and nothing is written
    when it is on. *)
Theorem truncation_failure_exits_message_unless_suppressed
  (SUPPRESS_ERRORS : bool) (artist title : string)
  (max_artist_length max_title_length max_length : Z)
  (format trunc : string) :
  format_branch artist title max_length format = TruncationBranch ->
  let result :=
    format_output SUPPRESS_ERRORS (Some artist) (Some title)
      max_artist_length max_title_length max_length format trunc in
  (SUPPRESS_ERRORS = false ->
   str_trunc title max_title_length trunc = None ->
   result = Exited 1 MSG_TRUNC_TITLE) /\
  (str_trunc artist max_artist_length trunc = None ->
   SUPPRESS_ERRORS = true
   \/ str_trunc title max_title_length trunc <> None ->
   result = Exited 1 (if SUPPRESS_ERRORS then "" else MSG_TRUNC_ARTIST)) /\
  (forall trunc_artist trunc_title,
     str_trunc artist max_artist_length trunc = Some trunc_artist ->
     str_trunc title max_title_length trunc = Some trunc_title ->
     str_trunc (substitute_tokens format trunc_artist trunc_title)
       max_length trunc = None ->
     result = Exited 1 (if SUPPRESS_ERRORS then "" else MSG_TRUNC_OUTPUT)) /\
  str_contains MSG_TRUNC_TITLE "smaller than the max title length" = true /\
  str_contains MSG_TRUNC_ARTIST "smaller than the max artist length" = true /\
  str_contains MSG_TRUNC_OUTPUT "smaller than the max output length" = true.
Proof.
  intros Hb result. subst result.
  split; [now apply title_failure_reported|].
  split; [now apply artist_failure_exits|].
  split; [intros ta tt; now apply output_failure_exits|].
  repeat split.
Qed.

Lemma truncation_failure_exits_message_unless_suppressed_witness :
  format_output false (Some "Eminem") (Some "Sing For The Moment")
    2 10 INT_MAX DEFAULT_FORMAT_TEMPLATE "..."
  = Exited 1 MSG_TRUNC_ARTIST.
Proof.
  refine (proj1 (proj2
    (truncation_failure_exits_message_unless_suppressed false
       "Eminem" "Sing For The Moment" 2 10 INT_MAX
       DEFAULT_FORMAT_TEMPLATE "..." _)) _ _).
  - reflexivity.
  - reflexivity.
  - right. vm_compute. discriminate.
Defined.

(** C3 as the specification states it fails: with [-q] given
    ([SUPPRESS_ERRORS] on) and a marker of three characters against an
    artist budget of two, the call exits with status 1 and writes no
    message at all. *)
Lemma truncation_failure_silent_counterexample :
  format_branch "Eminem" "Sing For The Moment" INT_MAX DEFAULT_FORMAT_TEMPLATE
    = TruncationBranch /\
  str_trunc "Eminem" 2 "..." = None /\
  format_output true (Some "Eminem") (Some "Sing For The Moment")
    2 10 INT_MAX DEFAULT_FORMAT_TEMPLATE "..."
  = Exited 1 "".
Proof. repeat split. Qed.

(** C4. Whenever the truncation branch is taken, [format_output] returns
    exactly what the three steps give: the artist cut to
    [max_artist_length] and the title to [max_title_length], each on its
    own, both substituted into the template, and the substituted string cut
    to [max_length] by the same [str_trunc].  For "Eminem", "Sing For The
    Moment", the default template, limits 10, 10 and 20 and marker "...",
    the branch is taken, the title becomes "Sing Fo..." and the artist
    stays "Eminem". *)
Theorem truncation_branch_follows_steps :
  (forall (SUPPRESS_ERRORS : bool) (artist title : string)
          (max_artist_length max_title_length max_length : Z)
          (format trunc out : string),
     format_branch artist title max_length format = TruncationBranch ->
     (format_output SUPPRESS_ERRORS (Some artist) (Some title)
        max_artist_length max_title_length max_length format trunc
      = Returned out
      <-> truncation_steps_spec artist title
            max_artist_length max_title_length max_length format trunc
          = Some out)) /\
  format_branch "Eminem" "Sing For The Moment" 20 DEFAULT_FORMAT_TEMPLATE
    = TruncationBranch /\
  str_trunc "Sing For The Moment" 10 "..." = Some "Sing Fo..." /\
  str_trunc "Eminem" 10 "..." = Some "Eminem" /\
  (forall SUPPRESS_ERRORS,
     format_output SUPPRESS_ERRORS (Some "Eminem") (Some "Sing For The Moment")
       10 10 20 DEFAULT_FORMAT_TEMPLATE "..."
     = Returned "Eminem: Sing Fo...").
Proof.
  split; [intros; now apply truncating_returns_iff_steps|].
  repeat split.
Qed.

Lemma truncation_branch_follows_steps_witness :
  format_output false (Some "Eminem") (Some "Sing For The Moment")
    INT_MAX 13 INT_MAX DEFAULT_FORMAT_TEMPLATE "..."
  = Returned "Eminem: Sing For T...".
Proof.
  apply (proj1 truncation_branch_follows_steps false
           "Eminem" "Sing For The Moment" INT_MAX 13 INT_MAX
           DEFAULT_FORMAT_TEMPLATE "..." "Eminem: Sing For T...").
  - reflexivity.
  - reflexivity.
Defined.

(** ** The formatter: placeholder and plain substitution *)

Section Placeholder.

Variables (SUPPRESS_ERRORS : bool).
Variables (max_artist_length max_title_length max_length : Z).
Variables (format trunc : string).

Lemma format_branch_both_empty :
  format_branch "" "" max_length format = PlaceholderCase.
Proof. reflexivity. Qed.

Lemma format_branch_placeholder_iff artist title :
  strlen artist <= INT_MAX ->
  strlen title <= INT_MAX ->
  format_branch artist title max_length format = PlaceholderCase
  <-> artist = "" /\ title = "".
Proof.
  intros Ha Ht. unfold format_branch.
  pose proof (int_length_zero artist Ha) as Hza.
  pose proof (int_length_zero title Ht) as Hzt.
  destruct (to_int (strlen artist) =? 0);
    destruct (to_int (strlen title) =? 0); simpl.
  - split; [intros _; split; [now apply Hza | now apply Hzt] | reflexivity].
  - split; [|intros [_ H]; apply Hzt in H; discriminate].
    destruct (_ || _); discriminate.
  - split; [|intros [H _]; apply Hza in H; discriminate].
    destruct (_ || _); discriminate.
  - split; [|intros [H _]; apply Hza in H; discriminate].
    destruct (_ || _); discriminate.
Qed.

Lemma format_output_null_artist title :
  format_output SUPPRESS_ERRORS None title
    max_artist_length max_title_length max_length format trunc
  = NullPassed "strlen".
Proof. reflexivity. Qed.

Lemma format_output_null_title artist :
  format_output SUPPRESS_ERRORS artist None
    max_artist_length max_title_length max_length format trunc
  = NullPassed "strlen".
Proof. now destruct artist. Qed.

End Placeholder.

(** C5, on the code.  With both strings present and empty the call
    returns the placeholder "Spotify" whatever the limits, the template and
    the marker.  With a field absent (a null pointer, which is what the
    extractors return for a missing field) the call hands the null pointer
    to [strlen] instead of returning the placeholder, and so does
    [get_status] on a reply that carries neither field. *)
Theorem placeholder_for_empty_but_not_for_absent
  (SUPPRESS_ERRORS : bool)
  (max_artist_length max_title_length max_length : Z)
  (format trunc : string) :
  DEFAULT_PLACEHOLDER = "Spotify" /\
  format_output SUPPRESS_ERRORS (Some "") (Some "")
    max_artist_length max_title_length max_length format trunc
  = Returned DEFAULT_PLACEHOLDER /\
  format_output SUPPRESS_ERRORS None None
    max_artist_length max_title_length max_length format trunc
  = NullPassed "strlen" /\
  get_song_title_from_metadata [Variant (Array [])] = None /\
  get_song_artist_from_metadata [Variant (Array [])] = None /\
  get_status SUPPRESS_ERRORS [Variant (Array [])]
    max_artist_length max_title_length max_length format trunc
  = NullPassed "strlen".
Proof. repeat split. Qed.

Lemma format_output_strlen_null_iff (SUPPRESS_ERRORS : bool)
  (artist title : option string)
  (max_artist_length max_title_length max_length : Z)
  (format trunc : string) :
  format_output SUPPRESS_ERRORS artist title
    max_artist_length max_title_length max_length format trunc
  = NullPassed "strlen"
  <-> artist = None \/ title = None.
Proof.
  split.
  - destruct artist as [a|]; [|now left].
    destruct title as [t|]; [|now right].
    unfold format_output, format_truncating, format_plain.
    destruct (format_branch a t max_length format); try discriminate.
    destruct (str_trunc t max_title_length trunc);
      destruct (str_trunc a max_artist_length trunc);
      destruct SUPPRESS_ERRORS; cbv zeta; try discriminate;
      destruct (str_trunc _ max_length trunc); discriminate.
  - intros [-> | ->].
    + apply format_output_null_artist.
    + apply format_output_null_title.
Qed.

(** Past the placeholder test the call is the body of one of the two
    branches of line 203. *)
Lemma format_output_past_placeholder (SUPPRESS_ERRORS : bool)
  (artist title : string)
  (max_artist_length max_title_length max_length : Z)
  (format trunc : string) :
  strlen artist <= INT_MAX ->
  strlen title <= INT_MAX ->
  ~ (artist = "" /\ title = "") ->
  format_output SUPPRESS_ERRORS (Some artist) (Some title)
    max_artist_length max_title_length max_length format trunc
  = if (max_length =? INT_MAX)
       || (TOTAL_UNTRUNC_LENGTH artist title format >? max_length)
    then format_truncating SUPPRESS_ERRORS artist title
           max_artist_length max_title_length max_length format trunc
    else format_plain artist title format.
Proof.
  intros Ha Ht Hne. unfold format_output, format_branch.
  destruct (to_int (strlen artist) =? 0) eqn:Ea;
    destruct (to_int (strlen title) =? 0) eqn:Et; cbn [andb];
    try (now destruct (_ || _)).
  exfalso. apply Hne. split; now apply int_length_zero.
Qed.

Lemma format_output_placeholder_everywhere_iff (artist title : string) :
  strlen artist <= INT_MAX ->
  strlen title <= INT_MAX ->
  (forall (SUPPRESS_ERRORS : bool)
          (max_artist_length max_title_length max_length : Z)
          (format trunc : string),
     format_output SUPPRESS_ERRORS (Some artist) (Some title)
       max_artist_length max_title_length max_length format trunc
     = Returned DEFAULT_PLACEHOLDER)
  <-> artist = "" /\ title = "".
Proof.
  intros Ha Ht. split.
  - intros H.
    destruct (string_dec artist "") as [Ea|Ea];
      destruct (string_dec title "") as [Et|Et]; [now split| | |].
    all: exfalso.
    all: specialize (H false INT_MAX INT_MAX INT_MAX "" "").
    all: rewrite format_output_past_placeholder in H
           by (assumption || (intros [? ?]; contradiction)).
    all: cbn [Z.eqb orb] in H.
    all: change (INT_MAX =? INT_MAX) with true in H; cbn [orb] in H.
    all: unfold format_truncating, str_trunc in H.
    all: change (INT_MAX =? INT_MAX) with true in H; cbn [orb] in H.
    all: cbv zeta in H; simp str_replace_all in H; discriminate H.
  - intros [-> ->] sup ma mt ml format trunc. reflexivity.
Qed.

(** C10. [format_output] needs both strings: it hands a null pointer to
    [strlen], whatever the other arguments are, exactly when the artist or
    the title pointer is null.  For two strings that are there, it returns
    the placeholder in every configuration exactly when both are empty:
    the placeholder case is taken for them and for no other pair, every
    other pair going through the truncation or the plain branch.  And
    [get_status] passes on whatever the extractors return, so it hands a
    null pointer to [strlen] exactly when the reply lacks a field. *)
Theorem format_output_requires_both_strings :
  (forall SUPPRESS_ERRORS artist title
          max_artist_length max_title_length max_length format trunc,
     format_output SUPPRESS_ERRORS artist title
       max_artist_length max_title_length max_length format trunc
     = NullPassed "strlen"
     <-> artist = None \/ title = None) /\
  (forall artist title : string,
     strlen artist <= INT_MAX ->
     strlen title <= INT_MAX ->
     ((forall SUPPRESS_ERRORS
              max_artist_length max_title_length max_length format trunc,
         format_output SUPPRESS_ERRORS (Some artist) (Some title)
           max_artist_length max_title_length max_length format trunc
         = Returned DEFAULT_PLACEHOLDER)
      <-> artist = "" /\ title = "") /\
     (forall max_length format,
        format_branch artist title max_length format = PlaceholderCase
        <-> artist = "" /\ title = "") /\
     (~ (artist = "" /\ title = "") ->
      forall SUPPRESS_ERRORS
             max_artist_length max_title_length max_length format trunc,
        format_output SUPPRESS_ERRORS (Some artist) (Some title)
          max_artist_length max_title_length max_length format trunc
        = if (max_length =? INT_MAX)
             || (TOTAL_UNTRUNC_LENGTH artist title format >? max_length)
          then format_truncating SUPPRESS_ERRORS artist title
                 max_artist_length max_title_length max_length format trunc
          else format_plain artist title format)) /\
  (forall SUPPRESS_ERRORS reply
          max_artist_length max_title_length max_length format trunc,
     get_status SUPPRESS_ERRORS reply
       max_artist_length max_title_length max_length format trunc
     = NullPassed "strlen"
     <-> get_song_title_from_metadata reply = None
         \/ get_song_artist_from_metadata reply = None).
Proof.
  split; [|split].
  - intros. apply format_output_strlen_null_iff.
  - intros artist title Ha Ht. split; [|split].
    + now apply format_output_placeholder_everywhere_iff.
    + intros ml format. now apply format_branch_placeholder_iff.
    + intros Hne sup ma mt ml format trunc.
      now apply format_output_past_placeholder.
  - intros sup reply ma mt ml format trunc. unfold get_status.
    rewrite format_output_strlen_null_iff. tauto.
Qed.

Lemma format_output_requires_both_strings_witness :
  get_status false
    [Variant (Array [DictEntry (Str "xesam:artist")
                       (Variant (Array [Str "Eminem"]))])]
    INT_MAX INT_MAX INT_MAX DEFAULT_FORMAT_TEMPLATE "..."
  = NullPassed "strlen".
Proof.
  apply (proj2 (proj2 format_output_requires_both_strings)).
  left. reflexivity.
Defined.

(** Two strings that are not both empty do not reach the placeholder,
    even where the output could pass for one. *)
Example format_output_not_placeholder_examples :
  format_output false (Some "Eminem") (Some "")
    INT_MAX INT_MAX INT_MAX "" ""
  = Returned "" /\
  format_output false (Some "") (Some "Stan")
    INT_MAX INT_MAX 3 "%artist%%title%" ""
  = Returned "Sta".
Proof. split; reflexivity. Qed.

(** C6.  Where the branch decision is reached (the artist and the title
    are not both empty), [max_length] is bounded and the estimate does not
    exceed it, [format_output] substitutes both values whole and never
    calls [str_trunc], however small [max_artist_length] and
    [max_title_length] are.  For "Eminem", "Sing For The Moment", the default template and
    limits 10, 20 and 30 the result is "Eminem: Sing For The Moment", and
    it stays so with the field limits lowered to 3 and 5. *)
Theorem format_plain_within_budget :
  (forall (SUPPRESS_ERRORS : bool) (artist title : string)
          (max_artist_length max_title_length max_length : Z)
          (format trunc : string),
     ~ (artist = "" /\ title = "") ->
     strlen artist <= INT_MAX ->
     strlen title <= INT_MAX ->
     fits_int (estimated_total_length artist title format) ->
     max_length <> INT_MAX ->
     estimated_total_length artist title format <= max_length ->
     format_output SUPPRESS_ERRORS (Some artist) (Some title)
       max_artist_length max_title_length max_length format trunc
     = Returned (substitute_tokens format artist title)) /\
  (forall SUPPRESS_ERRORS,
     format_output SUPPRESS_ERRORS (Some "Eminem") (Some "Sing For The Moment")
       10 20 30 DEFAULT_FORMAT_TEMPLATE "..."
     = Returned "Eminem: Sing For The Moment") /\
  (forall SUPPRESS_ERRORS,
     format_output SUPPRESS_ERRORS (Some "Eminem") (Some "Sing For The Moment")
       3 5 30 DEFAULT_FORMAT_TEMPLATE "..."
     = Returned "Eminem: Sing For The Moment").
Proof.
  split; [|split; reflexivity].
  intros sup artist title ma mt ml format trunc Hne Ha Ht He Hb Hle.
  unfold format_output.
  rewrite (format_branch_decision artist title format ml Hne Ha Ht He).
  unfold truncation_applies.
  replace (ml =? INT_MAX) with false by (symmetry; now apply Z.eqb_neq).
  replace (estimated_total_length artist title format >? ml) with false.
  - reflexivity.
  - symmetry. rewrite Z.gtb_ltb. apply Z.ltb_ge. exact Hle.
Qed.

Lemma format_plain_within_budget_witness :
  format_output false (Some "Eminem") (Some "Sing For The Moment")
    3 5 30 DEFAULT_FORMAT_TEMPLATE "..."
  = Returned (substitute_tokens DEFAULT_FORMAT_TEMPLATE
                "Eminem" "Sing For The Moment").
Proof.
  apply (proj1 format_plain_within_budget false
           "Eminem" "Sing For The Moment" 3 5 30
           DEFAULT_FORMAT_TEMPLATE "...").
  - intros [H _]. discriminate H.
  - vm_compute. discriminate.
  - vm_compute. discriminate.
  - split; vm_compute; discriminate.
  - unfold INT_MAX. lia.
  - vm_compute. discriminate.
Defined.

(** ** Token substitution *)

Section Substitution.

Lemma str_replace_all_cons c rest f fs repl :
  str_replace_all (String c rest) (String f fs) repl
  = if prefix (String f fs) (String c rest)
    then repl ++ str_replace_all (skip (String.length fs) rest) (String f fs) repl
    else String c (str_replace_all rest (String f fs) repl).
Proof.
  simp str_replace_all.
  destruct (prefix (String f fs) (String c rest)); now simp str_replace_all.
Qed.

(** Where the token stands at the cursor it is replaced, and the scan
    resumes behind it: the replacement is not scanned. *)
Lemma str_replace_all_at_token find rest repl :
  find <> "" ->
  str_replace_all (find ++ rest) find repl
  = repl ++ str_replace_all rest find repl.
Proof.
  destruct find as [|f fs]; [congruence|]. intros _.
  change (String f fs ++ rest) with (String f (fs ++ rest)).
  rewrite str_replace_all_cons.
  change (String f (fs ++ rest)) with (String f fs ++ rest).
  now rewrite prefix_app, skip_app.
Qed.

(** Elsewhere the character at the cursor is copied. *)
Lemma str_replace_all_copy c s find repl :
  prefix find (String c s) = false ->
  str_replace_all (String c s) find repl
  = String c (str_replace_all s find repl).
Proof.
  destruct find as [|f fs]; [discriminate|]. intros H.
  now rewrite str_replace_all_cons, H.
Qed.

Lemma str_replace_all_empty find repl : str_replace_all "" find repl = "".
Proof. destruct find; now simp str_replace_all. Qed.

Lemma num_of_matches_cons c rest f fs :
  num_of_matches (String c rest) (String f fs)
  = if prefix (String f fs) (String c rest)
    then 1 + num_of_matches (skip (String.length fs) rest) (String f fs)
    else num_of_matches rest (String f fs).
Proof.
  simp num_of_matches.
  destruct (prefix (String f fs) (String c rest)); now simp num_of_matches.
Qed.

Lemma strlen_skip_token f fs c rest :
  prefix (String f fs) (String c rest) = true ->
  strlen (skip (String.length fs) rest)
  = strlen (String c rest) - strlen (String f fs).
Proof.
  intros H. rewrite prefix_cons in H.
  destruct (ascii_dec f c); [|discriminate].
  assert (Hs : rest = fs ++ skip (String.length fs) rest).
  { clear -H. revert rest H.
    induction fs as [|a fs IH]; intros rest H; [reflexivity|].
    destruct rest as [|b rest]; [discriminate|]. rewrite prefix_cons in H.
    destruct (ascii_dec a b) as [->|]; [|discriminate].
    cbn [String.length skip append]. f_equal. now apply IH. }
  rewrite Hs at 2. unfold strlen. cbn [String.length].
  rewrite length_app. lia.
Qed.

(** One pass changes the length by the count of matches times the
    difference a single replacement makes: the count of [num_of_matches] is
    the number of replacements [str_replace_all] performs. *)
Lemma strlen_str_replace_all str find repl :
  strlen (str_replace_all str find repl)
  = strlen str + num_of_matches str find * (strlen repl - strlen find).
Proof.
  funelim (str_replace_all str find repl).
  - simp num_of_matches. lia.
  - simp num_of_matches. reflexivity.
  - rewrite num_of_matches_cons, Heq, strlen_app.
    match goal with IH : strlen (str_replace_all _ _ _) = _ |- _ =>
      rewrite IH end.
    rewrite (strlen_skip_token _ _ _ _ Heq). ring.
  - rewrite num_of_matches_cons, Heq.
    change (strlen (String c (str_replace_all rest (String f fs) repl)))
      with (Z.of_nat (S (String.length
                           (str_replace_all rest (String f fs) repl)))).
    change (strlen (String c rest)) with (Z.of_nat (S (String.length rest))).
    rewrite !Nat2Z.inj_succ.
    fold (strlen (str_replace_all rest (String f fs) repl)).
    match goal with IH : strlen (str_replace_all _ _ _) = _ |- _ =>
      rewrite IH end.
    unfold strlen. ring.
Qed.

Variables (fs repl : string).
Let find := String percent fs.

Lemma prefix_percent_false c s :
  Ascii.eqb c percent = false -> prefix find (String c s) = false.
Proof.
  intros H. unfold find. rewrite prefix_cons.
  destruct (ascii_dec percent c) as [<-|]; [|reflexivity].
  now rewrite Ascii.eqb_refl in H.
Qed.

(** A token that starts with '%' cannot start inside '%'-free text. *)
Lemma str_replace_all_free_text text rest :
  free_of percent text = true ->
  str_replace_all (text ++ rest) find repl
  = text ++ str_replace_all rest find repl.
Proof.
  induction text as [|c text IH]; simpl; [reflexivity|].
  intros H. apply andb_true_iff in H as [Hc Ht].
  apply negb_true_iff in Hc.
  rewrite str_replace_all_copy by now apply prefix_percent_false.
  now rewrite IH.
Qed.

Lemma str_contains_free s :
  free_of percent s = true -> str_contains s find = false.
Proof.
  induction s as [|c s IH]; [reflexivity|].
  cbn [free_of str_contains]. intros H.
  apply andb_true_iff in H as [Hc Hs]. apply negb_true_iff in Hc.
  rewrite prefix_percent_false by assumption. now apply IH.
Qed.

End Substitution.

Section Templates.

Variables (artist title : string).

(** The scan for the artist token walks over a title token, unless its
    closing '%' opens [%artist%]. *)
Lemma artist_pass_over_title_token rest :
  prefix "artist%" rest = false ->
  str_replace_all (TOKEN_TITLE ++ rest) TOKEN_ARTIST artist
  = TOKEN_TITLE ++ str_replace_all rest TOKEN_ARTIST artist.
Proof.
  intros H. unfold TOKEN_TITLE, TOKEN_ARTIST. cbn [append].
  rewrite !str_replace_all_copy by reflexivity.
  rewrite str_replace_all_copy; [reflexivity|].
  rewrite prefix_cons. now destruct (ascii_dec _ _).
Qed.

(** The artist pass over a well-formed template replaces the artist tokens
    and nothing else. *)
Lemma artist_pass_renders pieces :
  well_formed pieces = true ->
  str_replace_all (template_of pieces) TOKEN_ARTIST artist
  = render artist TOKEN_TITLE pieces.
Proof.
  unfold template_of.
  induction pieces as [|p rest IH]; cbn [render well_formed]; intros Hwf.
  - apply str_replace_all_empty.
  - destruct p as [s| |].
    + apply andb_true_iff in Hwf as [Hs Hr].
      unfold TOKEN_ARTIST at 2.
      rewrite (str_replace_all_free_text "artist%" artist s _ Hs).
      f_equal. now apply IH.
    + rewrite str_replace_all_at_token by discriminate.
      f_equal. now apply IH.
    + apply andb_true_iff in Hwf as [Hp Hr].
      apply negb_true_iff in Hp. unfold template_of in Hp.
      rewrite artist_pass_over_title_token by exact Hp.
      f_equal. now apply IH.
Qed.

Lemma well_formed_text_free pieces :
  well_formed pieces = true ->
  free_of percent artist = true ->
  free_of percent title = true ->
  free_of percent (render artist title pieces) = true.
Proof.
  intros Hwf Ha Ht.
  induction pieces as [|p rest IH]; [reflexivity|].
  cbn [render well_formed] in *. destruct p as [s| |]; rewrite free_of_app.
  - apply andb_true_iff in Hwf as [Hs Hr]. now rewrite Hs, IH.
  - now rewrite Ha, IH.
  - apply andb_true_iff in Hwf as [_ Hr]. now rewrite Ht, IH.
Qed.

(** When what the artist pass wrote holds no '%', the title pass replaces
    the title tokens and nothing else. *)
Lemma title_pass_renders pieces :
  well_formed pieces = true ->
  free_of percent artist = true ->
  str_replace_all (render artist TOKEN_TITLE pieces) TOKEN_TITLE title
  = render artist title pieces.
Proof.
  intros Hwf Ha.
  induction pieces as [|p rest IH]; cbn [render well_formed] in *.
  - apply str_replace_all_empty.
  - destruct p as [s| |].
    + apply andb_true_iff in Hwf as [Hs Hr].
      unfold TOKEN_TITLE at 2.
      rewrite (str_replace_all_free_text "title%" title s _ Hs).
      f_equal. now apply IH.
    + unfold TOKEN_TITLE at 2.
      rewrite (str_replace_all_free_text "title%" title artist _ Ha).
      f_equal. now apply IH.
    + apply andb_true_iff in Hwf as [_ Hr].
      rewrite str_replace_all_at_token by discriminate.
      f_equal. now apply IH.
Qed.

Lemma substitute_tokens_renders pieces :
  well_formed pieces = true ->
  free_of percent artist = true ->
  substitute_tokens (template_of pieces) artist title
  = render artist title pieces.
Proof.
  intros Hwf Ha. unfold substitute_tokens.
  rewrite artist_pass_renders by assumption.
  now apply title_pass_renders.
Qed.

End Templates.

(** ** Where a token can occur after a pass *)

Section Occurrences.

Lemma str_app_nil_r (s : string) : s ++ "" = s.
Proof. induction s as [|c s IH]; simpl; [reflexivity | now rewrite IH]. Qed.

(** Two ways of cutting one string in two. *)
Lemma str_app_eq_app (a b c d : string) :
  a ++ b = c ++ d ->
  exists m, (a = c ++ m /\ d = m ++ b) \/ (c = a ++ m /\ b = m ++ d).
Proof.
  revert c. induction a as [|x a IH]; intros c H.
  - exists c. right. now split.
  - destruct c as [|y c].
    + exists (String x a). left. now split.
    + cbn [append] in H. injection H as -> H.
      destruct (IH c H) as [m [[-> ->] | [-> ->]]]; exists m;
        [left | right]; now split.
Qed.

Lemma str_contains_unfold s tok :
  str_contains s tok
  = (prefix tok s
     || match s with
        | EmptyString => false
        | String _ s' => str_contains s' tok
        end)%bool.
Proof. now destruct s. Qed.

Lemma prefix_split u s :
  prefix u s = true -> s = u ++ skip (String.length u) s.
Proof.
  revert s. induction u as [|c u IH]; intros s H; [reflexivity|].
  destruct s as [|d s]; [discriminate|]. rewrite prefix_cons in H.
  destruct (ascii_dec c d) as [->|]; [|discriminate].
  cbn [String.length skip append]. f_equal. now apply IH.
Qed.

Lemma prefix_exists tok s :
  prefix tok s = true <-> exists post, s = tok ++ post.
Proof.
  split.
  - intros H. eexists. now apply prefix_split.
  - intros [post ->]. apply prefix_app.
Qed.

Lemma str_contains_iff s tok :
  str_contains s tok = true <-> exists pre post, s = pre ++ tok ++ post.
Proof.
  split.
  - induction s as [|c s IH]; rewrite str_contains_unfold; intros H;
      apply orb_true_iff in H as [H|H]; try discriminate.
    + apply prefix_exists in H as [post H]. now exists "", post.
    + apply prefix_exists in H as [post H]. now exists "", post.
    + destruct (IH H) as (pre & post & ->). now exists (String c pre), post.
  - intros (pre & post & ->).
    induction pre as [|c pre IH]; rewrite str_contains_unfold.
    + cbn [append]. now rewrite prefix_app.
    + cbn [append]. rewrite IH. apply orb_true_r.
Qed.

Lemma str_contains_app_false x y tok :
  str_contains (x ++ y) tok = false ->
  str_contains x tok = false /\ str_contains y tok = false.
Proof.
  intros H. split.
  - destruct (str_contains x tok) eqn:E; [|reflexivity].
    apply str_contains_iff in E as (pre & post & ->).
    rewrite <- H. symmetry. apply str_contains_iff.
    exists pre, (post ++ y). now rewrite !str_app_assoc.
  - destruct (str_contains y tok) eqn:E; [|reflexivity].
    apply str_contains_iff in E as (pre & post & ->).
    rewrite <- H. symmetry. apply str_contains_iff.
    exists (x ++ pre), post. now rewrite !str_app_assoc.
Qed.

Lemma take_skip n s : take n s ++ skip n s = s.
Proof.
  revert s. induction n as [|n IH]; intros [|c s]; simpl; try reflexivity.
  now rewrite IH.
Qed.

Lemma str_contains_take_false n s tok :
  str_contains s tok = false -> str_contains (take n s) tok = false.
Proof.
  intros H. rewrite <- (take_skip n s) in H.
  now apply str_contains_app_false in H.
Qed.

Lemma free_of_percent_app_false u v :
  free_of percent (u ++ String percent v) = false.
Proof.
  rewrite free_of_app. cbn [free_of]. rewrite Ascii.eqb_refl.
  apply andb_false_r.
Qed.

Lemma str_contains_empty w : str_contains w "" = true.
Proof. rewrite str_contains_unfold. now destruct w. Qed.

(** What is cut off the end of a string that ends in '%', unless nothing
    is cut off, ends in '%' too. *)
Lemma suffix_ends_in_percent u m m3 :
  u ++ String percent "" = m ++ m3 ->
  m3 <> "" ->
  exists m3', m3 = m3' ++ String percent "".
Proof.
  intros H Hne.
  destruct (str_app_eq_app _ _ _ _ H) as [k [[_ E] | [_ E]]].
  - now exists k.
  - destruct k as [|ck k].
    + exists "". cbn [append] in *. now symmetry.
    + cbn [append] in E. injection E as _ E.
      destruct k; destruct m3; try discriminate. now contradiction Hne.
Qed.

Variable word : string.
Hypothesis word_free : free_of percent word = true.

(** A token is its word between two '%'. *)
Let token : string := String percent (word ++ String percent "").

Lemma token_as_suffix : token = String percent word ++ String percent "".
Proof. reflexivity. Qed.

(** A '%'-free text behind a string adds no occurrence of the token. *)
Lemma str_contains_app_free x r :
  free_of percent r = true ->
  str_contains x token = false ->
  str_contains (x ++ r) token = false.
Proof.
  intros Hr Hx.
  destruct (str_contains (x ++ r) token) eqn:E; [|reflexivity].
  exfalso. apply str_contains_iff in E as (pre & post & E).
  destruct (str_app_eq_app _ _ _ _ E) as [m [[-> E2] | [-> E2]]].
  - destruct (str_app_eq_app _ _ _ _ E2) as [m3 [[Et Er] | [-> _]]].
    + destruct (string_dec m3 "") as [-> | Hne].
      * rewrite str_app_nil_r in Et. subst m.
        assert (str_contains (pre ++ token) token = true) as Hc.
        { apply str_contains_iff. exists pre, "".
          now rewrite str_app_nil_r. }
        congruence.
      * rewrite token_as_suffix in Et.
        destruct (suffix_ends_in_percent _ _ _ Et Hne) as [m3' ->].
        rewrite Er, str_app_assoc in Hr. cbn [append] in Hr.
        now rewrite free_of_percent_app_false in Hr.
    + assert (str_contains (pre ++ token ++ m3) token = true) as Hc.
      { apply str_contains_iff. now exists pre, m3. }
      congruence.
  - rewrite E2 in Hr. unfold token in Hr. cbn [append] in Hr.
    now rewrite free_of_percent_app_false in Hr.
Qed.

(** An occurrence of the token cannot run across an inserted text that
    holds no '%' and is no piece of the token's word. *)
Lemma str_contains_across x r y :
  clear_of word r = true ->
  str_contains x token = false ->
  str_contains y token = false ->
  str_contains (x ++ r ++ y) token = false.
Proof.
  intros Hclear Hx Hy.
  apply andb_true_iff in Hclear as [Hr Hw]. apply negb_true_iff in Hw.
  assert (Hrne : r <> "") by (intros ->; now rewrite str_contains_empty in Hw).
  destruct (str_contains (x ++ r ++ y) token) eqn:E; [|reflexivity].
  exfalso. apply str_contains_iff in E as (pre & post & E).
  destruct (str_app_eq_app _ _ _ _ E) as [m [[-> E2] | [-> E2]]].
  - (* the occurrence starts inside [x] *)
    destruct (str_app_eq_app _ _ _ _ E2) as [m3 [[Et Er] | [-> _]]].
    2: { assert (str_contains (pre ++ token ++ m3) token = true) as Hc
           by (apply str_contains_iff; now exists pre, m3).
         congruence. }
    destruct (string_dec m3 "") as [-> | Hne].
    { rewrite str_app_nil_r in Et. subst m.
      assert (str_contains (pre ++ token) token = true) as Hc
        by (apply str_contains_iff; exists pre, "";
            now rewrite str_app_nil_r).
      congruence. }
    destruct (str_app_eq_app _ _ _ _ Er) as [m4 [[Em _] | [-> _]]].
    + (* it ends inside [r] *)
      rewrite token_as_suffix in Et.
      destruct (suffix_ends_in_percent _ _ _ Et Hne) as [m3' ->].
      rewrite Em, str_app_assoc in Hr. cbn [append] in Hr.
      now rewrite free_of_percent_app_false in Hr.
    + (* it runs over all of [r] *)
      destruct m as [|cm m].
      * cbn [append] in Et. unfold token in Et.
        destruct r as [|cr r]; [now contradiction Hrne|].
        cbn [append] in Et. injection Et as <- _.
        cbn [free_of] in Hr. now rewrite Ascii.eqb_refl in Hr.
      * unfold token in Et. cbn [append] in Et. injection Et as _ Et.
        destruct (string_dec m4 "") as [-> | Hne4].
        { rewrite str_app_nil_r in Et.
          destruct (suffix_ends_in_percent _ _ _ Et Hrne) as [r' ->].
          now rewrite free_of_percent_app_false in Hr. }
        rewrite <- str_app_assoc in Et.
        destruct (str_app_eq_app _ _ _ _ Et) as [k [[Ew _] | [Ew Ep]]].
        -- assert (str_contains word r = true) as Hc.
           { apply str_contains_iff. exists m, k.
             now rewrite Ew, str_app_assoc. }
           congruence.
        -- destruct k as [|ck k].
           ++ assert (str_contains word r = true) as Hc.
              { apply str_contains_iff. exists m, "".
                rewrite str_app_nil_r in Ew.
                now rewrite str_app_nil_r, <- Ew. }
              congruence.
           ++ cbn [append] in Ep. injection Ep as _ Ep.
              destruct k; destruct m4; try discriminate.
              now contradiction Hne4.
  - (* the occurrence starts at or behind the end of [x] *)
    destruct (str_app_eq_app _ _ _ _ E2) as [m2 [[Er Et] | [_ Ey]]].
    + destruct m2 as [|c2 m2].
      * cbn [append] in Et.
        assert (str_contains y token = true) as Hc
          by (apply str_contains_iff; exists "", post; now rewrite <- Et).
        congruence.
      * unfold token in Et. cbn [append] in Et. injection Et as <- _.
        rewrite Er in Hr. now rewrite free_of_percent_app_false in Hr.
    + assert (str_contains y token = true) as Hc
        by (apply str_contains_iff; now exists m2, post).
      congruence.
Qed.

End Occurrences.

Section PassOccurrences.

Variables (find repl : string).
Hypothesis find_not_empty : find <> "".

Lemma prefix_app_l t x y : prefix t x = true -> prefix t (x ++ y) = true.
Proof.
  intros H. apply prefix_exists in H as [post ->].
  rewrite str_app_assoc. apply prefix_app.
Qed.

Lemma str_contains_nil_find : str_contains "" find = false.
Proof. destruct find; [now contradiction find_not_empty | reflexivity]. Qed.

(** Without an occurrence of the token a pass changes nothing. *)
Lemma str_replace_all_without s :
  str_contains s find = false -> str_replace_all s find repl = s.
Proof.
  induction s as [|c s IH]; intros H.
  - apply str_replace_all_empty.
  - rewrite str_contains_unfold in H.
    apply orb_false_iff in H as [Hp Hs].
    rewrite str_replace_all_copy by exact Hp. now rewrite IH.
Qed.

(** With one, a pass copies the text before the first occurrence,
    writes the replacement and goes on behind the occurrence. *)
Lemma str_replace_all_first s :
  str_contains s find = true ->
  exists before behind,
    s = before ++ find ++ behind /\
    str_contains before find = false /\
    str_replace_all s find repl
    = before ++ repl ++ str_replace_all behind find repl.
Proof.
  induction s as [|c s IH]; intros H.
  - now rewrite str_contains_nil_find in H.
  - rewrite str_contains_unfold in H.
    destruct (prefix find (String c s)) eqn:Hp.
    + apply prefix_exists in Hp as [behind Hp].
      exists "", behind. rewrite Hp. cbn [append].
      split; [reflexivity|]. split; [apply str_contains_nil_find|].
      now apply str_replace_all_at_token.
    + cbn [orb] in H. destruct (IH H) as (before & behind & Es & Hb & Er).
      exists (String c before), behind. split; [|split].
      * cbn [append]. now rewrite <- Es.
      * rewrite str_contains_unfold, Hb, orb_false_r.
        destruct (prefix find (String c before)) eqn:Hp'; [|reflexivity].
        apply (prefix_app_l _ _ (find ++ behind)) in Hp'.
        cbn [append] in Hp'. rewrite <- Es in Hp'. congruence.
      * rewrite str_replace_all_copy by exact Hp.
        cbn [append]. now rewrite Er.
Qed.

Variable word : string.
Hypothesis word_free : free_of percent word = true.
Hypothesis repl_clear : clear_of word repl = true.

Let token : string := String percent (word ++ String percent "").

(** A pass leaves no occurrence of [token] behind, be it the token of the
    pass or one its input was free of, when what it writes holds no '%'
    and is no piece of the token's word. *)
Lemma str_replace_all_token_free n :
  forall s,
    (String.length s <= n)%nat ->
    find = token \/ str_contains s token = false ->
    str_contains (str_replace_all s find repl) token = false.
Proof.
  induction n as [|n IH]; intros s Hlen Hs.
  - destruct s; [|cbn in Hlen; lia].
    rewrite str_replace_all_empty.
    destruct Hs as [Hf | Hs]; [|exact Hs].
    rewrite <- Hf. apply str_contains_nil_find.
  - destruct (str_contains s find) eqn:Ef.
    + destruct (str_replace_all_first s Ef)
        as (before & behind & Es & Hb & Er).
      rewrite Er.
      assert (Hlen' : (String.length behind <= n)%nat).
      { rewrite Es, !length_app in Hlen.
        destruct find; [now contradiction find_not_empty|].
        cbn [String.length] in Hlen. lia. }
      apply str_contains_across; try assumption; fold token.
      * destruct Hs as [Hf | Hs]; [rewrite <- Hf; exact Hb|].
        rewrite Es in Hs. now apply str_contains_app_false in Hs.
      * apply IH; [exact Hlen'|].
        destruct Hs as [Hs | Hs]; [now left | right].
        rewrite Es in Hs. apply str_contains_app_false in Hs as [_ Hs].
        now apply str_contains_app_false in Hs.
    + rewrite str_replace_all_without by exact Ef.
      destruct Hs as [Hf | Hs]; [|exact Hs].
      rewrite <- Hf. exact Ef.
Qed.

End PassOccurrences.

(** Both passes over any template, with values that are clear of the
    tokens' words. *)
Lemma substitute_tokens_token_free format artist title :
  artist_value_ok artist = true ->
  title_value_ok title = true ->
  str_contains (substitute_tokens format artist title) TOKEN_ARTIST = false /\
  str_contains (substitute_tokens format artist title) TOKEN_TITLE = false.
Proof.
  unfold artist_value_ok, title_value_ok, substitute_tokens.
  intros Ha Ht. apply andb_true_iff in Ht as [Hta Htt].
  assert (HA : str_contains (str_replace_all format TOKEN_ARTIST artist)
                 TOKEN_ARTIST = false).
  { apply (str_replace_all_token_free TOKEN_ARTIST artist ltac:(discriminate)
             "artist" Ha (String.length format) format (le_n _)).
    now left. }
  split.
  - apply (str_replace_all_token_free TOKEN_TITLE title ltac:(discriminate)
             "artist" Hta _ _ (le_n _)).
    now right.
  - apply (str_replace_all_token_free TOKEN_TITLE title ltac:(discriminate)
             "title" Htt _ _ (le_n _)).
    now left.
Qed.

(** Cutting a string and adding a '%'-free marker brings in no token. *)
Lemma str_trunc_token_free word s max_len marker r :
  free_of percent marker = true ->
  str_trunc s max_len marker = Some r ->
  str_contains s (String percent (word ++ String percent "")) = false ->
  str_contains r (String percent (word ++ String percent "")) = false.
Proof.
  intros Hm H Hs.
  destruct (str_trunc_shape s marker max_len r H) as [-> | [n ->]];
    [exact Hs|].
  apply str_contains_app_free; [exact Hm|].
  now apply str_contains_take_false.
Qed.

(** [format_output] over any template, when the marker holds no '%' and
    every value that can be substituted, whole or cut, is clear of the
    tokens' words. *)
Lemma format_output_token_free (SUPPRESS_ERRORS : bool) artist title
  max_artist_length max_title_length max_length format trunc out :
  free_of percent trunc = true ->
  (forall value,
     value = artist \/ str_trunc artist max_artist_length trunc = Some value ->
     artist_value_ok value = true) ->
  (forall value,
     value = title \/ str_trunc title max_title_length trunc = Some value ->
     title_value_ok value = true) ->
  format_output SUPPRESS_ERRORS (Some artist) (Some title)
    max_artist_length max_title_length max_length format trunc
  = Returned out ->
  str_contains out TOKEN_ARTIST = false /\
  str_contains out TOKEN_TITLE = false.
Proof.
  intros Hm Ha Ht. unfold format_output.
  destruct (format_branch artist title max_length format).
  - intros [= <-]. now split.
  - unfold format_truncating.
    destruct (str_trunc title max_title_length trunc) as [tt|] eqn:Ett;
      destruct (str_trunc artist max_artist_length trunc) as [ta|] eqn:Eta;
      destruct SUPPRESS_ERRORS; try discriminate; cbv zeta.
    all: fold (substitute_tokens format ta tt).
    all: destruct (str_trunc _ max_length trunc) as [o|] eqn:Eo;
           [|discriminate].
    all: intros [= <-].
    all: destruct (substitute_tokens_token_free format ta tt
                     (Ha ta (or_intror eq_refl)) (Ht tt (or_intror eq_refl)))
           as [HA HT].
    all: split;
           [exact (str_trunc_token_free "artist" _ _ _ _ Hm Eo HA)
           |exact (str_trunc_token_free "title" _ _ _ _ Hm Eo HT)].
  - unfold format_plain. cbv zeta.
    fold (substitute_tokens format artist title).
    intros [= <-].
    apply substitute_tokens_token_free;
      [apply Ha | apply Ht]; now left.
Qed.

Lemma str_trunc_free s max_len marker r :
  str_trunc s max_len marker = Some r ->
  free_of percent s = true ->
  free_of percent marker = true ->
  free_of percent r = true.
Proof.
  intros H Hs Hm.
  destruct (str_trunc_shape s marker max_len r H) as [-> | [n ->]].
  - exact Hs.
  - rewrite free_of_app, Hm, andb_true_r. now apply free_of_take.
Qed.

(** What [format_output] returns holds no '%' when nothing it is built
    from does. *)
Lemma format_output_free (SUPPRESS_ERRORS : bool) pieces artist title
  max_artist_length max_title_length max_length trunc out :
  well_formed pieces = true ->
  free_of percent artist = true ->
  free_of percent title = true ->
  free_of percent trunc = true ->
  format_output SUPPRESS_ERRORS (Some artist) (Some title)
    max_artist_length max_title_length max_length (template_of pieces) trunc
  = Returned out ->
  free_of percent out = true.
Proof.
  intros Hwf Ha Ht Hm. unfold format_output.
  destruct (format_branch artist title max_length (template_of pieces)).
  - intros [= <-]. reflexivity.
  - unfold format_truncating.
    destruct (str_trunc title max_title_length trunc) as [tt|] eqn:Ett;
      destruct (str_trunc artist max_artist_length trunc) as [ta|] eqn:Eta;
      destruct SUPPRESS_ERRORS; try discriminate; cbv zeta.
    all: pose proof (str_trunc_free _ _ _ _ Eta Ha Hm) as Hta.
    all: pose proof (str_trunc_free _ _ _ _ Ett Ht Hm) as Htt.
    all: fold (substitute_tokens (template_of pieces) ta tt).
    all: rewrite substitute_tokens_renders by assumption.
    all: destruct (str_trunc _ max_length trunc) as [o|] eqn:Eo;
           [|discriminate].
    all: intros [= <-]; apply (str_trunc_free _ _ _ _ Eo); [|assumption].
    all: now apply well_formed_text_free.
  - unfold format_plain. cbv zeta.
    fold (substitute_tokens (template_of pieces) artist title).
    rewrite substitute_tokens_renders by assumption.
    intros [= <-]. now apply well_formed_text_free.
Qed.




(** Why the values must be clear of the tokens' words when the template
    is arbitrary: a value with a '%', a value that is a piece of a word,
    and an empty value can each close a token around themselves. *)
Example token_can_form_around_a_value :
  format_output false (Some "%") (Some "X")
    INT_MAX INT_MAX INT_MAX "%artist%artist%" ""
  = Returned "%artist%" /\
  format_output false (Some "A") (Some "t")
    INT_MAX INT_MAX INT_MAX "%%title%itle%" ""
  = Returned "%title%" /\
  format_output false (Some "A") (Some "")
    INT_MAX INT_MAX INT_MAX "%art%title%ist%" ""
  = Returned "%artist%".
Proof. repeat split. Qed.

(** * Part III: further properties of the formatter and the extractor *)

Section FormatterFurther.

Variables (SUPPRESS_ERRORS : bool) (artist title : string).
Variables (max_artist_length max_title_length max_length : Z).
Variables (format trunc : string).

Lemma format_branch_not_placeholder :
  ~ (artist = "" /\ title = "") ->
  strlen artist <= INT_MAX ->
  strlen title <= INT_MAX ->
  format_branch artist title max_length format <> PlaceholderCase.
Proof.
  intros Hne Ha Ht H. apply Hne.
  now apply (format_branch_placeholder_iff max_length format artist title).
Qed.

Lemma str_trunc_within s r :
  max_length = INT_MAX \/ strlen s <= max_length ->
  str_trunc s max_length trunc = Some r -> r = s.
Proof.
  intros [-> | H].
  - rewrite str_trunc_unbounded. now intros [= <-].
  - rewrite str_trunc_short by assumption. now intros [= <-].
Qed.

Lemma str_trunc_bounded s r :
  max_length <> INT_MAX ->
  str_trunc s max_length trunc = Some r ->
  strlen r <= max_length.
Proof.
  intros Hb. unfold str_trunc.
  replace (max_length =? INT_MAX) with false
    by (symmetry; now apply Z.eqb_neq).
  cbn [orb].
  destruct (Z.leb_spec (strlen s) max_length) as [Hs|Hs].
  - now intros [= <-].
  - rewrite Z.gtb_ltb.
    destruct (Z.ltb_spec max_length (strlen trunc)) as [Hm|Hm];
      [discriminate|].
    intros [= <-]. rewrite strlen_app.
    rewrite (strlen_take_cut s trunc max_length) by lia. lia.
Qed.

End FormatterFurther.

(** X1. Nothing is cut that fits.  When the artist and the title are not
    both empty and each of the artist, the title and the substituted
    template is within its limit (or the limit is [INT_MAX]),
    [format_output] returns the substituted template itself, whichever
    branch it takes, whatever the marker and whether or not errors are
    suppressed. *)
Theorem format_output_unchanged_when_within_limits
  (SUPPRESS_ERRORS : bool) (artist title : string)
  (max_artist_length max_title_length max_length : Z)
  (format trunc : string) :
  ~ (artist = "" /\ title = "") ->
  strlen artist <= INT_MAX ->
  strlen title <= INT_MAX ->
  max_artist_length = INT_MAX \/ strlen artist <= max_artist_length ->
  max_title_length = INT_MAX \/ strlen title <= max_title_length ->
  max_length = INT_MAX
  \/ strlen (substitute_tokens format artist title) <= max_length ->
  format_output SUPPRESS_ERRORS (Some artist) (Some title)
    max_artist_length max_title_length max_length format trunc
  = Returned (substitute_tokens format artist title).
Proof.
  intros Hne Ha Ht Hma Hmt Hml.
  pose proof (format_branch_not_placeholder artist title max_length format
                Hne Ha Ht) as Hb.
  unfold format_output.
  destruct (format_branch artist title max_length format);
    [contradiction| |reflexivity].
  unfold format_truncating.
  assert (Eta : str_trunc artist max_artist_length trunc = Some artist).
  { destruct Hma as [-> | H];
      [apply str_trunc_unbounded | now apply str_trunc_short]. }
  assert (Ett : str_trunc title max_title_length trunc = Some title).
  { destruct Hmt as [-> | H];
      [apply str_trunc_unbounded | now apply str_trunc_short]. }
  rewrite Ett, Eta. cbv zeta.
  fold (substitute_tokens format artist title).
  destruct Hml as [-> | H].
  - now rewrite str_trunc_unbounded.
  - now rewrite str_trunc_short by assumption.
Qed.

Lemma format_output_unchanged_when_within_limits_witness :
  format_output true (Some "Eminem") (Some "Stan") 6 4 12
    DEFAULT_FORMAT_TEMPLATE "a marker longer than every limit"
  = Returned (substitute_tokens DEFAULT_FORMAT_TEMPLATE "Eminem" "Stan").
Proof.
  apply format_output_unchanged_when_within_limits.
  - intros [H _]. discriminate H.
  - vm_compute. discriminate.
  - vm_compute. discriminate.
  - right. vm_compute. discriminate.
  - right. vm_compute. discriminate.
  - right. vm_compute. discriminate.
Defined.

(** X2. The output respects a bounded [max_length].  When the artist and
    the title are not both empty, [max_length] is not [INT_MAX], and
    substituting the artist leaves the number of title tokens as it was in
    the template, whatever [format_output] returns is at most [max_length]
    characters long. *)
Theorem format_output_within_max_length
  (SUPPRESS_ERRORS : bool) (artist title : string)
  (max_artist_length max_title_length max_length : Z)
  (format trunc out : string) :
  ~ (artist = "" /\ title = "") ->
  strlen artist <= INT_MAX ->
  strlen title <= INT_MAX ->
  fits_int (estimated_total_length artist title format) ->
  max_length <> INT_MAX ->
  num_of_matches (str_replace_all format TOKEN_ARTIST artist) TOKEN_TITLE
    = num_of_matches format TOKEN_TITLE ->
  format_output SUPPRESS_ERRORS (Some artist) (Some title)
    max_artist_length max_title_length max_length format trunc
  = Returned out ->
  strlen out <= max_length.
Proof.
  intros Hne Ha Ht He Hb Hcount. unfold format_output.
  rewrite (format_branch_decision artist title format max_length Hne Ha Ht He).
  unfold truncation_applies.
  replace (max_length =? INT_MAX) with false
    by (symmetry; now apply Z.eqb_neq).
  cbn [orb]. rewrite Z.gtb_ltb.
  destruct (Z.ltb_spec max_length (estimated_total_length artist title format))
    as [Hover|Hfit].
  - unfold format_truncating.
    destruct (str_trunc title max_title_length trunc) as [tt|];
      destruct (str_trunc artist max_artist_length trunc) as [ta|];
      destruct SUPPRESS_ERRORS; try discriminate; cbv zeta.
    all: destruct (str_trunc _ max_length trunc) as [o|] eqn:Eo;
           [|discriminate].
    all: intros [= <-]; now apply (str_trunc_bounded max_length trunc _ _ Hb Eo).
  - unfold format_plain. cbv zeta. intros [= <-].
    rewrite !strlen_str_replace_all, Hcount.
    unfold estimated_total_length in Hfit. lia.
Qed.

Lemma format_output_within_max_length_witness :
  strlen "Eminem: Sing For The..." <= 23.
Proof.
  apply (format_output_within_max_length false
           "Eminem" "Sing For The Moment" 10 20 23
           DEFAULT_FORMAT_TEMPLATE "..." "Eminem: Sing For The...").
  - intros [H _]. discriminate H.
  - vm_compute. discriminate.
  - vm_compute. discriminate.
  - split; vm_compute; discriminate.
  - unfold INT_MAX. lia.
  - reflexivity.
  - reflexivity.
Defined.

(** Without the condition on the title tokens the bound can be exceeded:
    an artist that spells the title token is replaced by the title after
    the estimate was made. *)
Example format_output_can_exceed_max_length :
  format_output false (Some "%title%") (Some "Sing For The Moment")
    INT_MAX INT_MAX 10 "%artist%" "..."
  = Returned "Sing For The Moment".
Proof. reflexivity. Qed.

(** X3. A marker that fits every limit never makes the call fail: with
    both strings present and the marker no longer than each of the three
    limits, [format_output] returns a string. *)
Theorem format_output_returns_when_marker_fits
  (SUPPRESS_ERRORS : bool) (artist title : string)
  (max_artist_length max_title_length max_length : Z)
  (format trunc : string) :
  strlen trunc <= max_artist_length ->
  strlen trunc <= max_title_length ->
  strlen trunc <= max_length ->
  exists out,
    format_output SUPPRESS_ERRORS (Some artist) (Some title)
      max_artist_length max_title_length max_length format trunc
    = Returned out.
Proof.
  intros Hma Hmt Hml. unfold format_output.
  destruct (format_branch artist title max_length format);
    [now eexists| |now eexists].
  unfold format_truncating.
  destruct (str_trunc title max_title_length trunc) as [tt|] eqn:Ett.
  2: { apply str_trunc_fails_iff in Ett. lia. }
  destruct (str_trunc artist max_artist_length trunc) as [ta|] eqn:Eta.
  2: { apply str_trunc_fails_iff in Eta. lia. }
  cbv zeta.
  destruct (str_trunc _ max_length trunc) as [o|] eqn:Eo.
  2: { apply str_trunc_fails_iff in Eo. lia. }
  now eexists.
Qed.

Lemma format_output_returns_when_marker_fits_witness :
  exists out,
    format_output false (Some "Eminem") (Some "Sing For The Moment")
      3 3 3 DEFAULT_FORMAT_TEMPLATE "..."
    = Returned out.
Proof.
  apply format_output_returns_when_marker_fits; vm_compute; discriminate.
Defined.

(** X4. Suppressing errors changes the text on [stderr] and nothing else,
    except in one case: unless the title cannot be truncated while the
    artist can, a call with [SUPPRESS_ERRORS] on ends as the same call
    with it off, the message apart. *)
Theorem suppression_only_silences
  (artist title : string)
  (max_artist_length max_title_length max_length : Z)
  (format trunc : string) :
  (str_trunc title max_title_length trunc = None ->
   str_trunc artist max_artist_length trunc = None) ->
  without_stderr
    (format_output true (Some artist) (Some title)
       max_artist_length max_title_length max_length format trunc)
  = without_stderr
      (format_output false (Some artist) (Some title)
         max_artist_length max_title_length max_length format trunc).
Proof.
  intros H. unfold format_output.
  destruct (format_branch artist title max_length format); try reflexivity.
  unfold format_truncating.
  destruct (str_trunc title max_title_length trunc) as [tt|].
  - destruct (str_trunc artist max_artist_length trunc) as [ta|];
      [|reflexivity].
    cbv zeta. now destruct (str_trunc _ max_length trunc).
  - now rewrite (H eq_refl).
Qed.

Lemma suppression_only_silences_witness :
  without_stderr
    (format_output true (Some "Eminem") (Some "Sing For The Moment")
       2 2 INT_MAX DEFAULT_FORMAT_TEMPLATE "...")
  = without_stderr
      (format_output false (Some "Eminem") (Some "Sing For The Moment")
         2 2 INT_MAX DEFAULT_FORMAT_TEMPLATE "...").
Proof.
  apply suppression_only_silences. reflexivity.
Defined.

(** ** The extractor and [get_status], end to end *)

Section ExtractionFurther.

Lemma find_entry_app key pre post :
  find_entry key (pre ++ post)%list
  = match find_entry key pre with
    | Some val => Some val
    | None => find_entry key post
    end.
Proof.
  induction pre as [|e pre IH]; [reflexivity|].
  cbn [app find_entry].
  destruct e as [ | | |k val| | | | | | ]; try exact IH.
  destruct k; try exact IH.
  destruct (String.eqb s key); [reflexivity | exact IH].
Qed.

Lemma find_entry_first key pre val post :
  find_entry key pre = None ->
  find_entry key (pre ++ DictEntry (Str key) val :: post)%list = Some val.
Proof.
  intros H. rewrite find_entry_app, H. cbn [find_entry].
  now rewrite String.eqb_refl.
Qed.

Lemma str_app_empty_r (s : string) : s ++ "" = s.
Proof. induction s as [|c s IH]; simpl; [reflexivity | now rewrite IH]. Qed.

Lemma substitute_default_template artist title :
  free_of percent artist = true ->
  substitute_tokens DEFAULT_FORMAT_TEMPLATE artist title
  = artist ++ ": " ++ title.
Proof.
  intros Ha.
  change DEFAULT_FORMAT_TEMPLATE
    with (template_of [ArtistToken; Text ": "; TitleToken]).
  rewrite substitute_tokens_renders by (reflexivity || assumption).
  cbn [render]. now rewrite str_app_empty_r.
Qed.

Lemma format_output_no_limits (SUPPRESS_ERRORS : bool) artist title
  format trunc :
  ~ (artist = "" /\ title = "") ->
  strlen artist <= INT_MAX ->
  strlen title <= INT_MAX ->
  format_output SUPPRESS_ERRORS (Some artist) (Some title)
    INT_MAX INT_MAX INT_MAX format trunc
  = Returned (substitute_tokens format artist title).
Proof.
  intros Hne Ha Ht.
  pose proof (format_branch_not_placeholder artist title INT_MAX format
                Hne Ha Ht) as Hb.
  unfold format_output.
  destruct (format_branch artist title INT_MAX format);
    [contradiction|reflexivity|reflexivity].
Qed.

End ExtractionFurther.

(** X6. With no limit set and the default template, [get_status] on a
    reply that carries a title and an artist (not both empty, the artist
    free of '%') returns "artist: title", made of the title string and the
    first string of the artist array, whatever the marker; on a reply that
    carries an empty title and an empty first artist it returns the
    placeholder. *)
Theorem get_status_default_output
  (SUPPRESS_ERRORS : bool) (entries others more : list value)
  (artist title trunc : string) :
  find_entry METADATA_TITLE_KEY entries = Some (Variant (Str title)) ->
  find_entry METADATA_ARTIST_KEY entries
    = Some (Variant (Array (Str artist :: more))) ->
  strlen artist <= INT_MAX ->
  strlen title <= INT_MAX ->
  free_of percent artist = true ->
  get_status SUPPRESS_ERRORS (Variant (Array entries) :: others)
    INT_MAX INT_MAX INT_MAX DEFAULT_FORMAT_TEMPLATE trunc
  = if (String.eqb artist "" && String.eqb title "")%bool
    then Returned DEFAULT_PLACEHOLDER
    else Returned (artist ++ ": " ++ title).
Proof.
  intros Hft Hfa Ha Ht Hfree. unfold get_status.
  rewrite get_song_title_refines, get_song_artist_refines.
  unfold extract_field_spec. rewrite Hft, Hfa.
  cbn [read_string read_first_string].
  destruct (String.eqb_spec artist "") as [-> | Hna].
  - destruct (String.eqb_spec title "") as [-> | Hnt]; [reflexivity|].
    cbn [andb]. rewrite format_output_no_limits; try assumption.
    + now rewrite substitute_default_template.
    + now intros [_ H].
  - cbn [andb]. rewrite format_output_no_limits; try assumption.
    + now rewrite substitute_default_template.
    + now intros [H _].
Qed.

Lemma get_status_default_output_witness :
  get_status false
    [Variant (Array
       [DictEntry (Str "xesam:artist") (Variant (Array [Str "Eminem"]));
        DictEntry (Str "xesam:title") (Variant (Str "Stan"))])]
    INT_MAX INT_MAX INT_MAX DEFAULT_FORMAT_TEMPLATE "..."
  = Returned "Eminem: Stan".
Proof.
  apply (get_status_default_output false
           [DictEntry (Str "xesam:artist") (Variant (Array [Str "Eminem"]));
            DictEntry (Str "xesam:title") (Variant (Str "Stan"))]
           [] [] "Eminem" "Stan" "...").
  - reflexivity.
  - reflexivity.
  - vm_compute. discriminate.
  - vm_compute. discriminate.
  - reflexivity.
Defined.

(** * Part IV: the command line *)

Import Cli.

Section CommandLine.

#[local] Arguments atoi : simpl never.

Lemma first_match_none arg parameters from :
  first_match arg parameters from = None <-> ~ In arg parameters.
Proof.
  revert from. induction parameters as [|p rest IH]; intros from; simpl.
  - split; [intros _ H; exact H | reflexivity].
  - destruct (String.eqb_spec arg p) as [->|Hne].
    + split; [discriminate | intros H; exfalso; apply H; now left].
    + rewrite IH. split.
      * intros H [E|E]; [now apply Hne | now apply H].
      * intros H E. apply H. now right.
Qed.

Lemma first_match_bound arg parameters from j :
  first_match arg parameters from = Some j ->
  (from <= j < from + List.length parameters)%nat.
Proof.
  revert from. induction parameters as [|p rest IH]; intros from; simpl.
  - discriminate.
  - destruct (String.eqb arg p).
    + intros [= <-]. lia.
    + intros H. apply IH in H. lia.
Qed.

(** A word is taken for an option or a command exactly when it is one of
    the thirteen of [PARAMETERS]. *)
Lemma param_index_none arg : param_index arg = None <-> ~ In arg PARAMETERS.
Proof.
  unfold param_index. rewrite <- (first_match_none arg PARAMETERS 0).
  destruct (first_match arg PARAMETERS 0) as [j|] eqn:E; [|tauto].
  apply first_match_bound in E. cbn [List.length PARAMETERS] in E.
  split; [|discriminate].
  do 13 (destruct j as [|j]; [discriminate|]). lia.
Qed.

Lemma words_cons it items rest :
  (words (it :: items) ++ rest)%list
  = (item_words it ++ (words items ++ rest))%list.
Proof. unfold words. cbn [List.map List.concat]. now rewrite <- List.app_assoc. Qed.

Lemma words_app items items' :
  words (items ++ items')%list = (words items ++ words items')%list.
Proof. unfold words. now rewrite List.map_app, List.concat_app. Qed.

(** Within the range of [int] every C library reads the number as
    written. *)
Lemma atoi_in_range value :
  fits_int (atoi_value value) -> atoi value = atoi_value value.
Proof.
  intros H. unfold atoi, strtol.
  assert (Hr : Z.max LONG_MIN (Z.min LONG_MAX (atoi_value value))
               = atoi_value value).
  { unfold fits_int, INT_MIN, INT_MAX, LONG_MIN, LONG_MAX in *. lia. }
  rewrite Hr. now apply to_int_id.
Qed.

Lemma atoi_positive value :
  0 < atoi_value value <= INT_MAX -> 0 < atoi value.
Proof.
  intros H. rewrite atoi_in_range; [lia|].
  unfold fits_int, INT_MIN. lia.
Qed.

Lemma atoi_non_positive value :
  INT_MIN <= atoi_value value <= 0 -> atoi value <= 0.
Proof.
  intros H. rewrite atoi_in_range; [lia|].
  unfold fits_int, INT_MAX. lia.
Qed.

(** Beyond the range of [long] the model follows glibc: the number reads
    as -1, and [main] refuses it. *)
Example atoi_out_of_range :
  atoi "18446744073709551617" = -1 /\
  atoi "  +42 and more" = 42 /\
  atoi "ten" = 0 /\
  main ["spotifyctl"; "--max-length"; "18446744073709551617"; "status"]
    example_bus
  = Finished 1 "" MSG_MAX_LENGTH [].
Proof. repeat split. Qed.

Lemma parse_args_item it rest o :
  item_ok it ->
  parse_args (item_words it ++ rest)%list o = parse_args rest (apply_item o it).
Proof.
  destruct it as [ |v|v|v|v|v|c]; cbn [item_words app item_ok apply_item];
    intros Hok; cbn [parse_args]; try reflexivity.
  - change (param_index "--max-artist-length")
      with (Some PARAM_MAX_ARTIST_LENGTH). cbv iota.
    apply atoi_positive in Hok.
    destruct (Z.leb_spec (atoi v) 0); [lia | reflexivity].
  - change (param_index "--max-title-length")
      with (Some PARAM_MAX_TITLE_LENGTH). cbv iota.
    apply atoi_positive in Hok.
    destruct (Z.leb_spec (atoi v) 0); [lia | reflexivity].
  - change (param_index "--max-length") with (Some PARAM_MAX_LENGTH).
    cbv iota.
    apply atoi_positive in Hok.
    destruct (Z.leb_spec (atoi v) 0); [lia | reflexivity].
  - now destruct c.
Qed.

Lemma parse_args_items items :
  Forall item_ok items ->
  forall rest o,
    parse_args (words items ++ rest)%list o
    = parse_args rest (apply_items items o).
Proof.
  induction 1 as [|it items Hok _ IH]; intros rest o; [reflexivity|].
  rewrite words_cons, parse_args_item by assumption.
  apply IH.
Qed.

Lemma parse_args_limits_positive n :
  forall args o o',
    (List.length args <= n)%nat ->
    limits_positive o ->
    parse_args args o = Parsed o' ->
    limits_positive o'.
Proof.
  unfold limits_positive.
  induction n as [|n IH]; intros args o o' Hlen Hpos.
  - destruct args; [|simpl in Hlen; lia]. now intros [= <-].
  - destruct args as [|arg rest]; [now intros [= <-]|].
    cbn [List.length] in Hlen. cbn [parse_args].
    destruct (param_index arg) as [[ | | | | | | | | | | | | ]|];
      try discriminate;
      try (apply IH; [lia | exact Hpos]).
    + destruct rest as [|v rest']; [discriminate|].
      destruct (Z.leb_spec (atoi v) 0); [discriminate|].
      apply IH; [cbn [List.length] in Hlen; lia|].
      cbn. intuition lia.
    + destruct rest as [|v rest']; [discriminate|].
      destruct (Z.leb_spec (atoi v) 0); [discriminate|].
      apply IH; [cbn [List.length] in Hlen; lia|].
      cbn. intuition lia.
    + destruct rest as [|v rest']; [discriminate|].
      destruct (Z.leb_spec (atoi v) 0); [discriminate|].
      apply IH; [cbn [List.length] in Hlen; lia|].
      cbn. intuition lia.
    + destruct rest as [|v rest']; [now intros [= <-]|].
      apply IH; [cbn [List.length] in Hlen; lia | exact Hpos].
    + destruct rest as [|v rest']; [now intros [= <-]|].
      apply IH; [cbn [List.length] in Hlen; lia | exact Hpos].
Qed.

Lemma SUPPRESS_ERRORS_apply_items items o :
  SUPPRESS_ERRORS (apply_items items o)
  = (SUPPRESS_ERRORS o || quiet items)%bool.
Proof.
  unfold apply_items, quiet. revert o.
  induction items as [|it items IH]; intros o; cbn [List.fold_left List.existsb].
  - now rewrite orb_false_r.
  - rewrite IH. destruct it; cbn; try reflexivity.
    now rewrite orb_true_r.
Qed.

Lemma prog_mode_apply_items_last items c o :
  prog_mode (apply_items (items ++ [Command c])%list o) = command_mode c.
Proof.
  unfold apply_items. now rewrite List.fold_left_app.
Qed.

Lemma main_items prog items b :
  Forall item_ok items ->
  main (prog :: words items) b = dispatch b (apply_items items default_options).
Proof.
  intros Hok. unfold main. cbn [List.tl].
  rewrite <- (List.app_nil_r (words items)).
  now rewrite parse_args_items.
Qed.

End CommandLine.

(** X7. A command line written as a sequence of items (the flag, options
    each followed by its value, which for a length is a positive number
    within the range of [int], commands) is read item by item: the loop ends with
    the options that applying the items in order gives, a later item
    overriding an earlier one, and it goes on with whatever follows.  A
    value is never taken for an option or a command, whatever it spells.
    [main] then connects and runs the command of these options. *)
Theorem command_line_read_item_by_item (items : list item) :
  Forall item_ok items ->
  (forall rest o,
     parse_args (words items ++ rest)%list o
     = parse_args rest (apply_items items o)) /\
  (forall prog b,
     main (prog :: words items) b
     = dispatch b (apply_items items default_options)).
Proof.
  intros Hok. split.
  - now apply parse_args_items.
  - intros prog b. now apply main_items.
Qed.

Lemma command_line_read_item_by_item_witness :
  main ["spotifyctl"; "play"; "--format"; "help"; "--max-length"; "12abc";
        "-q"; "next"]
    {| bus_get_error := None;
       metadata_reply := inl "unused";
       player_error := fun _ => None |}
  = Finished 0 "" "" ["Next"].
Proof.
  refine (eq_trans
    (proj2 (command_line_read_item_by_item
              [Command Play; Format "help"; MaxLength "12abc"; Quiet;
               Command Next] _) "spotifyctl" _) _).
  - repeat constructor; vm_compute; congruence.
  - reflexivity.
Defined.

(** X8. [help] wins over everything behind it and needs no bus: after any
    items that read well, the word [help] makes [main] print the usage
    text and return 0 without a single call on the bus, whatever follows
    on the command line and whatever state the bus is in. *)
Theorem help_prints_usage_and_stops
  (prog : string) (items : list item) (rest : list string) (b : bus) :
  Forall item_ok items ->
  main (prog :: words items ++ "help" :: rest) b
  = Finished 0 print_usage "" [].
Proof.
  intros Hok. unfold main. cbn [List.tl].
  now rewrite parse_args_items.
Qed.

Lemma help_prints_usage_and_stops_witness :
  main ("spotifyctl" :: words [Quiet; Command Play]
          ++ "help" :: ["--max-length"; "0"; "bogus"])
    {| bus_get_error := Some "no session bus";
       metadata_reply := inl "unused";
       player_error := fun _ => Some "unused" |}
  = Finished 0 print_usage "" [].
Proof.
  apply help_prints_usage_and_stops. repeat constructor.
Defined.

(** X9. A word that is none of [PARAMETERS], standing where an option or a
    command is expected, ends the run with status 1 and the message naming
    it, before any call on the bus; [-q] given earlier does not silence
    it. *)
Theorem unknown_word_rejected
  (prog : string) (items : list item) (word : string)
  (rest : list string) (b : bus) :
  Forall item_ok items ->
  ~ In word PARAMETERS ->
  main (prog :: words items ++ word :: rest) b
  = Finished 1 "" (invalid_option word) [].
Proof.
  intros Hok Hw. unfold main. cbn [List.tl].
  rewrite parse_args_items by assumption. cbn [parse_args].
  apply param_index_none in Hw. now rewrite Hw.
Qed.

Lemma unknown_word_rejected_witness :
  main ("spotifyctl" :: words [Quiet; Command Status] ++ "--quiet" :: ["play"])
    {| bus_get_error := None;
       metadata_reply := inl "unused";
       player_error := fun _ => None |}
  = Finished 1 "" (invalid_option "--quiet") [].
Proof.
  apply unknown_word_rejected.
  - repeat constructor.
  - cbn. intros H. repeat (destruct H as [H|H]; [discriminate H|]). exact H.
Defined.

(** X10. After items that read well, a length written as a number that
    is zero or negative (within the range of [int]; text that starts with
    no number counts as zero) ends the run with status 1 and the message of
    that option, before any call on the bus and whether or not [-q] was
    given. *)
Theorem non_positive_length_rejected
  (prog : string) (items : list item) (value : string)
  (rest : list string) (b : bus) :
  Forall item_ok items ->
  INT_MIN <= atoi_value value <= 0 ->
  main (prog :: words items ++ "--max-artist-length" :: value :: rest) b
    = Finished 1 "" MSG_ARTIST_LENGTH [] /\
  main (prog :: words items ++ "--max-title-length" :: value :: rest) b
    = Finished 1 "" MSG_TITLE_LENGTH [] /\
  main (prog :: words items ++ "--max-length" :: value :: rest) b
    = Finished 1 "" MSG_MAX_LENGTH [].
Proof.
  intros Hok Hv. apply atoi_non_positive in Hv.
  unfold main. cbn [List.tl].
  rewrite !parse_args_items by assumption. cbn [parse_args].
  change (param_index "--max-artist-length")
    with (Some PARAM_MAX_ARTIST_LENGTH).
  change (param_index "--max-title-length")
    with (Some PARAM_MAX_TITLE_LENGTH).
  change (param_index "--max-length") with (Some PARAM_MAX_LENGTH).
  cbv iota.
  destruct (Z.leb_spec (atoi value) 0); [|lia].
  repeat split.
Qed.

Lemma non_positive_length_rejected_witness :
  main ("spotifyctl" :: words [Quiet; Command Status]
          ++ "--max-length" :: "ten" :: [])
    {| bus_get_error := None;
       metadata_reply := inl "unused";
       player_error := fun _ => None |}
  = Finished 1 "" MSG_MAX_LENGTH [].
Proof.
  apply non_positive_length_rejected.
  - repeat constructor.
  - split; vm_compute; discriminate.
Defined.

(** X11. An option written last, without its value, reads the null
    pointer behind the arguments: a length option hands it to [atoi];
    [--format] and [--trunc] make it the template and the marker, and
    [main] goes on to connect and run the command with it. *)
Theorem option_without_value_reads_null
  (prog : string) (items : list item) (b : bus) :
  Forall item_ok items ->
  main (prog :: words items ++ ["--max-artist-length"]) b
    = Undefined "atoi" [] /\
  main (prog :: words items ++ ["--max-title-length"]) b
    = Undefined "atoi" [] /\
  main (prog :: words items ++ ["--max-length"]) b
    = Undefined "atoi" [] /\
  main (prog :: words items ++ ["--format"]) b
    = dispatch b (set_status_format None (apply_items items default_options)) /\
  main (prog :: words items ++ ["--trunc"]) b
    = dispatch b (set_trunc None (apply_items items default_options)).
Proof.
  intros Hok. unfold main. cbn [List.tl].
  rewrite !parse_args_items by assumption.
  repeat split.
Qed.

Lemma option_without_value_reads_null_witness :
  main ("spotifyctl" :: words [Command Status] ++ ["--max-length"])
    {| bus_get_error := None;
       metadata_reply := inl "unused";
       player_error := fun _ => None |}
  = Undefined "atoi" [].
Proof.
  apply (option_without_value_reads_null "spotifyctl" [Command Status]).
  repeat constructor.
Defined.

(** X12. Whatever the command line, when the option loop runs to its end
    the three limits it leaves are positive: each is the [INT_MAX] it
    started with or a value that [atoi] read as greater than zero. *)
Theorem parsed_limits_positive (args : list string) (o : options) :
  parse_args args default_options = Parsed o ->
  0 < max_artist_length o /\ 0 < max_title_length o /\ 0 < max_length o.
Proof.
  apply (parse_args_limits_positive (List.length args));
    [lia | repeat split].
Qed.

Lemma parsed_limits_positive_witness :
  0 < 7 /\ 0 < INT_MAX /\ 0 < 30.
Proof.
  apply (parsed_limits_positive
           ["--max-length"; "30"; "status"; "--max-artist-length"; "7"]
           {| prog_mode := MODE_STATUS;
              max_artist_length := 7;
              max_title_length := INT_MAX;
              max_length := 30;
              status_format := Some DEFAULT_FORMAT_TEMPLATE;
              trunc := Some "...";
              SUPPRESS_ERRORS := false |}).
  reflexivity.
Defined.

Section Dispatch.

Lemma prog_mode_apply_items_no_command items o :
  (forall c, ~ In (Command c) items) ->
  prog_mode (apply_items items o) = prog_mode o.
Proof.
  unfold apply_items. revert o.
  induction items as [|it items IH]; intros o Hno; [reflexivity|].
  cbn [List.fold_left]. rewrite IH.
  - destruct it; try reflexivity. exfalso. apply (Hno c). now left.
  - intros c H. apply (Hno c). now right.
Qed.

Lemma quiet_app_command items c :
  quiet (items ++ [Command c])%list = quiet items.
Proof.
  unfold quiet. rewrite List.existsb_app. cbn. now rewrite orb_false_r.
Qed.

Lemma Forall_item_ok_command items c :
  Forall item_ok items -> Forall item_ok (items ++ [Command c])%list.
Proof.
  intros H. apply Forall_app. split; [exact H|]. now repeat constructor.
Qed.

End Dispatch.

(** X13. With the bus connected, a command line of items ending in a
    command makes exactly one call on the bus, that command's method,
    whatever commands stood before it and however the call ends.  A player
    command returns 0 when the call succeeds.  When the call fails (for
    [status], when the [Get] fails) the run ends with status 1, nothing on
    [stdout], and the bus's message on [stderr] unless [-q] was among the
    items.  When the [Get] of a [status] succeeds, the run is what
    [format_output] makes of the two extracted fields under the options of
    the items: its string printed as one line with status 0, or its exit
    status and message. *)
Theorem last_command_makes_one_call
  (prog : string) (items : list item) (c : command) (b : bus) :
  Forall item_ok items ->
  bus_get_error b = None ->
  let o := apply_items (items ++ [Command c]) default_options in
  calls_of (main (prog :: words (items ++ [Command c])) b)
    = [command_method c] /\
  (c <> Status ->
   main (prog :: words (items ++ [Command c])) b
   = match player_error b (command_method c) with
     | Some message =>
         Finished 1 "" (if quiet items then "" else message)
           [command_method c]
     | None => Finished 0 "" "" [command_method c]
     end) /\
  (forall message,
     c = Status ->
     metadata_reply b = inl message ->
     main (prog :: words (items ++ [Command c])) b
     = Finished 1 "" (if quiet items then "" else message) [STATUS_METHOD]) /\
  (forall reply,
     c = Status ->
     metadata_reply b = inr reply ->
     main (prog :: words (items ++ [Command c])) b
     = match format_output_ptr (quiet items)
               (get_song_artist_from_metadata reply)
               (get_song_title_from_metadata reply)
               (max_artist_length o) (max_title_length o) (max_length o)
               (status_format o) (trunc o) with
       | Returned output =>
           Finished 0 (output ++ newline) "" [STATUS_METHOD]
       | Exited status message =>
           Finished status "" message [STATUS_METHOD]
       | NullPassed callee => Undefined callee [STATUS_METHOD]
       end).
Proof.
  intros Hok Hbus o.
  pose proof (main_items prog _ b (Forall_item_ok_command items c Hok)) as Hm.
  rewrite Hm. fold o. unfold dispatch. rewrite Hbus.
  assert (Hmode : prog_mode o = command_mode c)
    by apply prog_mode_apply_items_last.
  assert (Hq : SUPPRESS_ERRORS o = quiet items).
  { unfold o. now rewrite SUPPRESS_ERRORS_apply_items, quiet_app_command. }
  rewrite Hmode. split; [|split; [|split]].
  - destruct c; cbn [command_mode command_method];
      unfold spotify_player_call, get_status_call;
      try (now destruct (player_error b _)).
    destruct (metadata_reply b) as [message|reply]; [reflexivity|].
    cbv zeta. now destruct (format_output_ptr _ _ _ _ _ _ _ _).
  - intros Hc.
    destruct c; try contradiction; cbn [command_mode command_method];
      unfold spotify_player_call; now rewrite Hq.
  - intros message -> Hreply. cbn [command_mode].
    unfold get_status_call. now rewrite Hreply, Hq.
  - intros reply -> Hreply. cbn [command_mode].
    unfold get_status_call. now rewrite Hreply, Hq.
Qed.

Lemma last_command_makes_one_call_witness :
  main ("spotifyctl" :: words ([Command Play; Quiet; Command Status]
                               ++ [Command Pause]))
    {| bus_get_error := None;
       metadata_reply := inl "unused";
       player_error := fun _ => Some "org.freedesktop.DBus.Error.ServiceUnknown" |}
  = Finished 1 "" "" ["Pause"].
Proof.
  refine (proj1 (proj2 (last_command_makes_one_call "spotifyctl"
                   [Command Play; Quiet; Command Status] Pause _ _ _)) _).
  - repeat constructor.
  - reflexivity.
  - discriminate.
Defined.

(** X14. The connection comes before the command.  When [dbus_bus_get]
    fails the run ends with status 1 and no call, the bus's message on
    [stderr] unless [-q] was given, whatever the command.  When it
    succeeds and the items hold no command, the run ends with status 1 and
    the "No command specified" message, [-q] or not. *)
Theorem connection_then_missing_command
  (prog : string) (items : list item) (b : bus) :
  Forall item_ok items ->
  (forall message,
     bus_get_error b = Some message ->
     main (prog :: words items) b
     = Finished 1 "" (if quiet items then "" else message) []) /\
  (bus_get_error b = None ->
   (forall c, ~ In (Command c) items) ->
   main (prog :: words items) b = Finished 1 "" MSG_NO_COMMAND []).
Proof.
  intros Hok. rewrite (main_items prog items b Hok). unfold dispatch.
  split.
  - intros message ->. now rewrite SUPPRESS_ERRORS_apply_items.
  - intros -> Hno. now rewrite prog_mode_apply_items_no_command.
Qed.

Lemma connection_then_missing_command_witness :
  main ("spotifyctl" :: words [Quiet; MaxLength "20"])
    {| bus_get_error := None;
       metadata_reply := inl "unused";
       player_error := fun _ => None |}
  = Finished 1 "" MSG_NO_COMMAND [].
Proof.
  refine (proj2 (connection_then_missing_command "spotifyctl"
                   [Quiet; MaxLength "20"] _ _) _ _).
  - repeat constructor; vm_compute; congruence.
  - reflexivity.
  - intros c [H|[H|[]]]; discriminate H.
Defined.

(** X15. [spotifyctl status] with no option, on a connected bus whose
    reply carries a title and an artist (not both empty, the artist free
    of '%'), makes the one [Get] call, prints "artist: title" as one line
    and returns 0. *)
Theorem status_prints_artist_and_title
  (prog : string) (b : bus) (entries others more : list value)
  (artist title : string) :
  bus_get_error b = None ->
  metadata_reply b = inr (Variant (Array entries) :: others) ->
  find_entry METADATA_TITLE_KEY entries = Some (Variant (Str title)) ->
  find_entry METADATA_ARTIST_KEY entries
    = Some (Variant (Array (Str artist :: more))) ->
  ~ (artist = "" /\ title = "") ->
  strlen artist <= INT_MAX ->
  strlen title <= INT_MAX ->
  free_of percent artist = true ->
  main [prog; "status"] b
  = Finished 0 (artist ++ ": " ++ title ++ newline) "" [STATUS_METHOD].
Proof.
  intros Hbus Hreply Hft Hfa Hne Ha Ht Hfree.
  unfold main. cbn [List.tl parse_args].
  change (param_index "status") with (Some PARAM_STATUS). cbv iota.
  unfold dispatch. rewrite Hbus. cbn [prog_mode set_prog_mode].
  unfold get_status_call. rewrite Hreply.
  rewrite get_song_title_refines, get_song_artist_refines.
  unfold extract_field_spec. rewrite Hft, Hfa.
  cbn [read_string read_first_string].
  cbn [SUPPRESS_ERRORS max_artist_length max_title_length max_length
       status_format trunc set_prog_mode default_options].
  cbn [format_output_ptr].
  rewrite format_output_no_limits by assumption.
  rewrite substitute_default_template by assumption.
  now rewrite !str_app_assoc.
Qed.

Lemma status_prints_artist_and_title_witness :
  main ["spotifyctl"; "status"]
    {| bus_get_error := None;
       metadata_reply :=
         inr [Variant (Array
                [DictEntry (Str "xesam:artist") (Variant (Array [Str "Eminem"]));
                 DictEntry (Str "xesam:title") (Variant (Str "Stan"))])];
       player_error := fun _ => None |}
  = Finished 0 ("Eminem" ++ ": " ++ "Stan" ++ newline) "" [STATUS_METHOD].
Proof.
  refine (status_prints_artist_and_title "spotifyctl" _
            [DictEntry (Str "xesam:artist") (Variant (Array [Str "Eminem"]));
             DictEntry (Str "xesam:title") (Variant (Str "Stan"))]
            [] [] "Eminem" "Stan" _ _ _ _ _ _ _ _).
  - reflexivity.
  - reflexivity.
  - reflexivity.
  - reflexivity.
  - intros [H _]. discriminate H.
  - vm_compute. discriminate.
  - vm_compute. discriminate.
  - reflexivity.
Defined.

(** X16. The three examples of the usage text are what the program does:
    run with the options each example shows, on a bus that reports "Sing
    For The Moment" by Eminem, [main] prints the very line the usage text
    gives for that example. *)
Theorem usage_examples_hold :
  main ["spotifyctl"; "status"; "--format"; "%artist%: %title%";
        "--max-length"; "30"; "--max-artist-length"; "10";
        "--max-title-length"; "20"; "--trunc"; "..."] example_bus
    = Finished 0 ("Eminem: Sing For The Moment" ++ newline) "" [STATUS_METHOD] /\
  In "    Eminem: Sing For The Moment" USAGE_LINES /\
  main ["spotifyctl"; "status"; "--format"; "%artist%: %title%";
        "--max-length"; "20"; "--max-artist-length"; "10";
        "--max-title-length"; "10"; "--trunc"; "..."] example_bus
    = Finished 0 ("Eminem: Sing Fo..." ++ newline) "" [STATUS_METHOD] /\
  In "    Eminem: Sing Fo..." USAGE_LINES /\
  main ["spotifyctl"; "status"; "--format"; "%artist%: %title%";
        "--max-title-length"; "13"; "--trunc"; "..."] example_bus
    = Finished 0 ("Eminem: Sing For T..." ++ newline) "" [STATUS_METHOD] /\
  In "    Eminem: Sing For T..." USAGE_LINES.
Proof.
  repeat split; try reflexivity; cbn; tauto.
Qed.
